(** * nsq-py: the multiplexing client ([nsq/client.py])

    A shallow embedding of [class Client] and the properties of its
    connection table, discovery and readiness loop.

    Python objects live in a store: a [Conn] is an object handle, its
    mutable attributes are a cell of the heap.  Every call that leaves the
    client (a method of a [Connection], [select.select], the lookupd HTTP
    client, the logger) is recorded in a chronological trace, and whatever
    the outside world answers is read from a [World] of oracles, each of
    which sees the trace so far.  Exceptions are explicit results. *)

From stdpp Require Import gmap strings list fin_maps numbers.
From Stdlib Require Import ZArith QArith Ascii String.

Local Open Scope Z_scope.
Local Open Scope string_scope.
Local Open Scope list_scope.

(** ** Data model *)

(** Modelled from the spec: [constants.HEARTBEAT]; [nsq/constants.py] is
    not part of the sources, section 6 gives the heartbeat marker as the
    literal ASCII [_heartbeat_]. *)
Definition HEARTBEAT : string := "_heartbeat_".

(** Modelled from the spec: [nsq/exceptions.py] is not part of the sources.
    [Error.exception()] yields an instance of a closed family of exception
    classes; the three the client names are constructors of their own, any
    other class is [OtherKind] with the server's error code. *)
Inductive ErrorKind :=
| FinFailed
| ReqFailed
| TouchFailed
| OtherKind (code : string).

(** An object handle of a [connection.Connection]: the object's identity
    [oid] (its index in the heap) and its two immutable attributes. *)
Record Conn := mkConn { oid : nat; host : string; port : Z }.

(** Modelled from the spec: [nsq/response.py] is not part of the sources;
    section 3 gives a frame as a tagged variant of [Response], [Error] and
    [Message]. *)
Inductive Frame :=
| Response (data : string)
| Error (kind : ErrorKind) (detail : string)
| Message (id : string) (timestamp : Z) (attempts : Z) (body : string)
          (origin : Conn).

(** The commands a connection can queue (section 4.1 of the spec). *)
Inductive Command :=
| SUB (topic channel : string)
| PUB (topic body : string)
| RDY (n : Z)
| FIN (id : string)
| REQ (id : string) (timeout : Z)
| TOUCH (id : string)
| NOP
| CLS.

(** The [**identify] keyword arguments, passed through unchanged. *)
Definition IdentifyOptions : Type := list (string * string).

(** Modelled from the spec: [nsq/connection.py] is not part of the sources.
    The mutable attributes of a [Connection] that the client reads or
    changes (section 4.2): the handshake options, the blocking mode,
    liveness and the queue of unsent commands. *)
Record ConnState := mkConnState {
  identify_options : IdentifyOptions;
  blocking : bool;
  sock_alive : bool;
  out_buffer : list Command
}.

Inductive LogLevel := DEBUG | INFO | WARN | ERROR | EXCEPTION.

Inductive LogArg :=
| ArgStr (s : string)
| ArgInt (n : Z)
| ArgConn (c : Conn)
| ArgKind (k : ErrorKind).

(** Modelled from the spec: the answer of [nsqlookupd.Client.lookup]
    ([nsq/http] is not part of the sources; section 6 gives the JSON
    shape): the [(broadcast_address, tcp_port)] pairs under
    [data.producers], or a [ClientException]. *)
Inductive LookupResult :=
| Producers (ps : list (string * Z))
| ClientException.

(** What the client does to the outside world, in the order it does it,
    with what the world answered. *)
Inductive Event :=
| EvNew (c : Conn) (opts : IdentifyOptions)
| EvSetBlocking (c : Conn) (flag : Z)
| EvConnect (c : Conn)
| EvClose (c : Conn)
| EvNop (c : Conn)
| EvRead (c : Conn) (frames : list Frame) (raised : bool)
| EvFlush (c : Conn)
| EvSelect (rlist wlist xlist : list Conn) (timeout : Q)
           (readable writable exceptable : list Conn)
| EvLookup (lookupd : string) (topic : option string) (res : LookupResult)
| EvLog (level : LogLevel) (fmt : string) (args : list LogArg).

(** The Python exceptions that leave a method of the client. *)
Inductive Exn :=
| AssertionError
| ValueError.

(** The outside world.  Every oracle is given the trace so far, so the
    same question may be answered differently at different times. *)
Record World := mkWorld {
  (** is the connection alive after [Connection(host, port)] or
      [conn.connect()]? *)
  w_handshake : list Event -> Conn -> bool;
  w_lookup : list Event -> string -> option string -> LookupResult;
  (** [select.select(rlist, wlist, xlist, timeout)] *)
  w_select : list Event -> list Conn -> list Conn -> list Conn -> Q ->
             list Conn * list Conn * list Conn;
  (** [conn.read()]: the frames it yields, and whether it then raises an
      [NSQException] *)
  w_read : list Event -> Conn -> list Frame * bool;
  (** [conn.flush()]: how many queued commands the socket took *)
  w_flush : list Event -> Conn -> nat
}.

(** [self]: the attributes of a [Client]. *)
Record Client := mkClient {
  _identify_options : IdentifyOptions;
  _connections : gmap (string * Z) Conn;
  _timeout : Q;
  _lookupd : list string;
  _topic : option string;
  _nsqd_tcp_addresses : list string
}.

Record State := mkState {
  self : Client;
  heap : list ConnState;
  trace : list Event
}.

Global Instance ErrorKind_eq_dec : EqDecision ErrorKind.
Proof. solve_decision. Defined.
Global Instance Conn_eq_dec : EqDecision Conn.
Proof. solve_decision. Defined.
Global Instance Frame_eq_dec : EqDecision Frame.
Proof. solve_decision. Defined.
Global Instance Command_eq_dec : EqDecision Command.
Proof. solve_decision. Defined.

(** ** A state and exception monad *)

Inductive Result (A : Type) :=
| Ok (a : A)
| Raise (e : Exn).
Arguments Ok {A} a.
Arguments Raise {A} e.

Definition M (A : Type) : Type := State -> State * Result A.

Definition ret {A} (a : A) : M A := fun s => (s, Ok a).
Definition raise {A} (e : Exn) : M A := fun s => (s, Raise e).
Definition bind {A B} (m : M A) (k : A -> M B) : M B :=
  fun s => match m s with
           | (s', Ok a) => k a s'
           | (s', Raise e) => (s', Raise e)
           end.

Declare Scope py_scope.
Delimit Scope py_scope with py.
Notation "'let*' x := m 'in' k" := (bind m (fun x => k))
  (at level 10, x pattern, m at level 100, k at level 200) : py_scope.
Notation "m ;;; k" := (bind m (fun _ => k))
  (at level 100, k at level 200, right associativity) : py_scope.
Local Open Scope py_scope.

Definition get : M State := fun s => (s, Ok s).
Definition emit (e : Event) : M unit :=
  fun s => (mkState (self s) (heap s) (trace s ++ [e]), Ok tt).
Definition with_connections (t : gmap (string * Z) Conn) (s : State) : State :=
  let c := self s in
  mkState (mkClient (_identify_options c) t (_timeout c) (_lookupd c)
                    (_topic c) (_nsqd_tcp_addresses c))
          (heap s) (trace s).
Definition set_connections (t : gmap (string * Z) Conn) : M unit :=
  fun s => (with_connections t s, Ok tt).
Definition set_heap (h : list ConnState) : M unit :=
  fun s => (mkState (self s) h (trace s), Ok tt).

(** [for x in l: body(x)] *)
Fixpoint for_each {A} (l : list A) (body : A -> M unit) : M unit :=
  match l with
  | [] => ret tt
  | x :: l' => body x ;;; for_each l' body
  end.

(** ** Loggers and the methods of a [Connection] *)

Definition log (level : LogLevel) (fmt : string) (args : list LogArg) : M unit :=
  emit (EvLog level fmt args).

Definition key_of (c : Conn) : string * Z := (host c, port c).

(** Modelled from the spec: [conn.alive()], the liveness flag
    (section 4.2). *)
Definition alive (h : list ConnState) (c : Conn) : bool :=
  match h !! oid c with
  | Some cs => sock_alive cs
  | None => false
  end.

(** Modelled from the spec: [conn.pending()], true when the out-buffer
    is not empty (section 4.2). *)
Definition pending (h : list ConnState) (c : Conn) : bool :=
  match h !! oid c with
  | Some cs => match out_buffer cs with [] => false | _ => true end
  | None => false
  end.

Definition update_conn (f : ConnState -> ConnState) (c : Conn) : M unit :=
  let* s := get in
  match heap s !! oid c with
  | Some cs => set_heap (<[oid c := f cs]> (heap s))
  | None => ret tt
  end.

Definition with_alive (b : bool) (cs : ConnState) : ConnState :=
  mkConnState (identify_options cs) (blocking cs) b (out_buffer cs).
Definition with_blocking (b : bool) (cs : ConnState) : ConnState :=
  mkConnState (identify_options cs) b (sock_alive cs) (out_buffer cs).
Definition with_out_buffer (f : list Command -> list Command)
    (cs : ConnState) : ConnState :=
  mkConnState (identify_options cs) (blocking cs) (sock_alive cs)
              (f (out_buffer cs)).

(** Modelled from the spec: [conn.close()], a best-effort shutdown after
    which the connection is not alive (section 4.2). *)
Definition conn_close (c : Conn) : M unit :=
  emit (EvClose c) ;;; update_conn (with_alive false) c.

(** Modelled from the spec: [conn.nop()], a [send] wrapper that appends
    [NOP] to the out-buffer (section 4.2). *)
Definition conn_nop (c : Conn) : M unit :=
  emit (EvNop c) ;;; update_conn (with_out_buffer (fun b => b ++ [NOP])) c.

(** Modelled from the spec: [conn.setblocking(flag)] (section 4.2). *)
Definition conn_setblocking (c : Conn) (flag : Z) : M unit :=
  emit (EvSetBlocking c flag) ;;;
  update_conn (with_blocking (negb (Z.eqb flag 0))) c.

(** Modelled from the spec: [conn.connect()], a new handshake (the
    [open()] of section 4.2); the world decides how it ends, and a failed
    handshake leaves the connection dead (section 7: a failure of one
    connection is confined to that connection). *)
Definition conn_connect (W : World) (c : Conn) : M unit :=
  let* s := get in
  emit (EvConnect c) ;;;
  update_conn (with_alive (w_handshake W (trace s) c)) c.

(** Modelled from the spec: [conn.flush()], the socket takes as much of
    the out-buffer as it can, partial writes permitted (section 4.2). *)
Definition conn_flush (W : World) (c : Conn) : M unit :=
  let* s := get in
  emit (EvFlush c) ;;;
  update_conn (with_out_buffer (drop (w_flush W (trace s) c))) c.

(** Modelled from the spec: [connection.Connection(host, port,
    **identify)], a new object that has gone through the handshake
    (section 3, lifecycle), blocking and with nothing to send. *)
Definition new_Connection (W : World) (h : string) (p : Z)
    (opts : IdentifyOptions) : M Conn :=
  let* s := get in
  let c := mkConn (List.length (heap s)) h p in
  set_heap (heap s ++ [mkConnState opts true (w_handshake W (trace s) c) []]) ;;;
  emit (EvNew c opts) ;;;
  ret c.

(** ** Python built-ins the client uses *)

(** [s.split(sep)] for a one-character separator. *)
Fixpoint py_split (sep : ascii) (s : string) : list string :=
  match s with
  | EmptyString => [EmptyString]
  | String c s' =>
      if Ascii.eqb c sep then EmptyString :: py_split sep s'
      else match py_split sep s' with
           | w :: ws => String c w :: ws
           | [] => [String c EmptyString]
           end
  end.

Definition is_space (c : ascii) : bool :=
  let n := nat_of_ascii c in
  (Nat.eqb n 32 || (Nat.leb 9 n && Nat.leb n 13))%bool.

Fixpoint lstrip (s : string) : string :=
  match s with
  | String c s' => if is_space c then lstrip s' else s
  | EmptyString => EmptyString
  end.

Fixpoint rstrip (s : string) : string :=
  match s with
  | String c s' =>
      match rstrip s' with
      | EmptyString => if is_space c then EmptyString else String c EmptyString
      | r => String c r
      end
  | EmptyString => EmptyString
  end.

Definition digit_of (c : ascii) : option Z :=
  let n := nat_of_ascii c in
  if (Nat.leb 48 n && Nat.leb n 57)%bool then Some (Z.of_nat (n - 48))
  else None.

Fixpoint digits_value (acc : Z) (s : string) : option Z :=
  match s with
  | EmptyString => Some acc
  | String c s' =>
      match digit_of c with
      | Some d => digits_value (10 * acc + d) s'
      | None => None
      end
  end.

Definition unsigned_value (s : string) : option Z :=
  match s with
  | EmptyString => None
  | _ => digits_value 0 s
  end.

(** [int(s)] on a string, base 10: surrounding white space, an optional
    sign, then one or more decimal digits; [None] is [ValueError]. *)
Definition py_int (s : string) : option Z :=
  match rstrip (lstrip s) with
  | String "-" r => Z.opp <$> unsigned_value r
  | String "+" r => unsigned_value r
  | t => unsigned_value t
  end.

(** The truth value of [topic]: [None] and the empty string are false. *)
Definition truthy_topic (topic : option string) : bool :=
  match topic with
  | Some EmptyString => false
  | Some _ => true
  | None => false
  end.

Definition truthy_list {A} (l : list A) : bool :=
  match l with [] => false | _ => true end.

(** ** The methods of [Client] *)

(** [Client.add] *)
Definition add (connection : Conn) : M (option Conn) :=
  let key := key_of connection in
  let* s := get in
  match _connections (self s) !! key with
  | None =>
      set_connections (<[key := connection]> (_connections (self s))) ;;;
      ret (Some connection)
  | Some _ => ret None
  end.

(** [Client.close_connection], the hook for subclasses:
    [connection.close()]. *)
Definition close_connection (connection : Conn) : M unit :=
  conn_close connection.

(** [Client.remove]: [pop] the key, then close what was found inside
    [try: ... except Exception], where closing [None] raises an
    [AttributeError] that is logged as a warning. *)
Definition remove (connection : Conn) : M (option Conn) :=
  let key := key_of connection in
  let* s := get in
  let found := _connections (self s) !! key in
  set_connections (delete key (_connections (self s))) ;;;
  match found with
  | Some c => close_connection c
  | None =>
      log WARN "Failed to close %s: %s"
          [ArgConn connection;
           ArgStr "'NoneType' object has no attribute 'close'"]
  end ;;;
  ret found.

(** [Client.connect] *)
Definition connect (W : World) (h : string) (p : Z) : M Conn :=
  let* s := get in
  let* conn := new_Connection W h p (_identify_options (self s)) in
  conn_setblocking conn 0 ;;;
  add conn ;;;
  ret conn.

(** [Client.connections]: the values of the table. *)
Definition connections (s : State) : list Conn :=
  (map_to_list (_connections (self s))).*2.

(** [Client.close] (Python 2: [map] is eager). *)
Definition close : M unit :=
  let* s := get in
  for_each (connections s) (fun c => remove c ;;; ret tt).

(** The first loop of [Client.discover]: ask every lookupd, collect the
    producers, log a [ClientException] and go on. *)
Fixpoint query_lookupds (W : World) (lookupds : list string)
    (topic : option string) (producers : list (string * Z))
    : M (list (string * Z)) :=
  match lookupds with
  | [] => ret producers
  | lookupd :: rest =>
      let* s := get in
      let res := w_lookup W (trace s) lookupd topic in
      emit (EvLookup lookupd topic res) ;;;
      match res with
      | Producers ps => query_lookupds W rest topic (producers ++ ps)
      | ClientException =>
          log EXCEPTION "Failed to query %s" [ArgStr lookupd] ;;;
          query_lookupds W rest topic producers
      end
  end.

(** The body of the second loop of [Client.discover]. *)
Definition discover_one (W : World) (new : list Conn) (hp : string * Z)
    : M (list Conn) :=
  let '(h, p) := hp in
  let* s := get in
  match _connections (self s) !! (h, p) with
  | None =>
      log INFO "Discovered %s:%s" [ArgStr h; ArgInt p] ;;;
      let* c := connect W h p in
      ret (new ++ [c])
  | Some conn =>
      if negb (alive (heap s) conn) then
        log INFO "Reconnecting to %s:%s" [ArgStr h; ArgInt p] ;;;
        conn_connect W conn ;;;
        ret new
      else
        log DEBUG "Connection to %s:%s still alive" [ArgStr h; ArgInt p] ;;;
        ret new
  end.

Fixpoint fold_m {A B} (f : B -> A -> M B) (l : list A) (b : B) : M B :=
  match l with
  | [] => ret b
  | x :: l' => let* b' := f b x in fold_m f l' b'
  end.

(** [Client.discover]; the final [[conn for conn in new if conn]] keeps
    every element, a connection object being true. *)
Definition discover (W : World) (topic : option string) : M (list Conn) :=
  let* s := get in
  let* producers := query_lookupds W (_lookupd (self s)) topic [] in
  fold_m (discover_one W) producers [].

(** The body of the loop of [Client.check_connections]. *)
Definition check_hostspec (W : World) (hostspec : string) : M unit :=
  match py_split ":" hostspec with
  | [h; port] =>
      match py_int port with
      | Some p =>
          let* s := get in
          match _connections (self s) !! (h, p) with
          | None =>
              log INFO "Connecting to %s:%s" [ArgStr h; ArgInt p] ;;;
              connect W h p ;;;
              ret tt
          | Some conn =>
              if negb (alive (heap s) conn) then ret tt (* pass *)
              else ret tt
          end
      | None => raise ValueError
      end
  | _ => raise ValueError
  end.

(** [Client.check_connections] *)
Definition check_connections (W : World) : M unit :=
  let* s := get in
  (if truthy_list (_lookupd (self s))
   then discover W (_topic (self s)) ;;; ret tt
   else ret tt) ;;;
  for_each (_nsqd_tcp_addresses (self s)) (check_hostspec W).

(** A [Client] object before [__init__] has set its attributes. *)
Definition blank : Client := mkClient [] ∅ 0%Q [] None [].

(** The default of [timeout], 0.1 seconds. *)
Definition default_timeout : Q := (1 # 10)%Q.

Definition set_self (c : Client) : M unit :=
  fun s => (mkState c (heap s) (trace s), Ok tt).

(** [Client.__init__]: the assertion on [topic], the attributes, then
    [check_connections]. *)
Definition __init__ (W : World)
    (lookupd_http_addresses nsqd_tcp_addresses : option (list string))
    (topic : option string) (timeout : Q) (identify : IdentifyOptions)
    : M unit :=
  if (truthy_list (default [] lookupd_http_addresses)
      && negb (truthy_topic topic))%bool
  then raise AssertionError
  else
    set_self (mkClient identify ∅ timeout
                       (default [] lookupd_http_addresses) topic
                       (default [] nsqd_tcp_addresses)) ;;;
    check_connections W.

(** Is [res] a [Response] whose data is the heartbeat marker? *)
Definition is_heartbeat (res : Frame) : bool :=
  match res with
  | Response data => bool_decide (data = HEARTBEAT)
  | _ => false
  end.

(** [isinstance(res.exception(), nonfatal)] *)
Definition nonfatal (kind : ErrorKind) : bool :=
  match kind with
  | FinFailed | ReqFailed | TouchFailed => true
  | OtherKind _ => false
  end.

(** The body of [for res in conn.read()] in [Client.read]. *)
Definition handle_frame (conn : Conn) (responses : list Frame) (res : Frame)
    : M (list Frame) :=
  if is_heartbeat res then
    log INFO "Sending heartbeat to %s" [ArgConn conn] ;;;
    conn_nop conn ;;;
    ret responses (* continue *)
  else
    match res with
    | Error kind _ =>
        if negb (nonfatal kind) then
          log ERROR "Closing %s: %s" [ArgConn conn; ArgKind kind] ;;;
          close_connection conn
        else ret tt
    | _ => ret tt
    end ;;;
    ret (responses ++ [res]).

(** The body of [for conn in readable] in [Client.read]: drain the
    connection; an [NSQException] from [conn.read()] is logged and closes
    it. *)
Definition read_conn (W : World) (responses : list Frame) (conn : Conn)
    : M (list Frame) :=
  let* s := get in
  let '(frames, raised) := w_read W (trace s) conn in
  emit (EvRead conn frames raised) ;;;
  let* responses' := fold_m (handle_frame conn) frames responses in
  (if raised : bool then
     log EXCEPTION "Failed to read from %s" [ArgConn conn] ;;;
     close_connection conn
   else ret tt) ;;;
  ret responses'.

(** [Client.read] *)
Definition read (W : World) : M (list Frame) :=
  let* s := get in
  let conns := List.filter (alive (heap s)) (connections s) in
  if negb (truthy_list conns) then ret []
  else
    let writes := List.filter (pending (heap s)) conns in
    let '(readable, writable, exceptable) :=
      w_select W (trace s) conns writes conns (_timeout (self s)) in
    emit (EvSelect conns writes conns (_timeout (self s))
                   readable writable exceptable) ;;;
    if negb (truthy_list readable || truthy_list writable
             || truthy_list exceptable)%bool
    then log DEBUG "Timed out..." [] ;;; ret []
    else
      let* responses := fold_m (read_conn W) readable [] in
      for_each writable (conn_flush W) ;;;
      for_each exceptable close_connection ;;;
      ret responses.

(** ** Vocabulary of the properties *)

(** The state right after [Connection(...)] and [setblocking(0)], before
    [add]. *)
Definition connected (W : World) (h : string) (p : Z) (s : State) : State :=
  let c := mkConn (List.length (heap s)) h p in
  mkState (self s)
    (heap s ++ [mkConnState (_identify_options (self s)) false
                  (w_handshake W (trace s) c) []])
    (trace s ++ [EvNew c (_identify_options (self s)); EvSetBlocking c 0]).

(** In-place update of the cell of [c], as a function of the heap. *)
Definition upd (f : ConnState → ConnState) (c : Conn)
    (h : list ConnState) : list ConnState :=
  match h !! oid c with
  | Some cs => <[oid c := f cs]> h
  | None => h
  end.

(** What handling one frame of [conn] adds to the trace ... *)
Definition frame_events (conn : Conn) (res : Frame) : list Event :=
  if is_heartbeat res then
    [EvLog INFO "Sending heartbeat to %s" [ArgConn conn]; EvNop conn]
  else
    match res with
    | Error kind _ =>
        if nonfatal kind then []
        else [EvLog ERROR "Closing %s: %s" [ArgConn conn; ArgKind kind];
              EvClose conn]
    | _ => []
    end.

(** ... and does to the heap. *)
Definition frame_heap (conn : Conn) (res : Frame)
    (h : list ConnState) : list ConnState :=
  if is_heartbeat res then upd (with_out_buffer (λ b, b ++ [NOP])) conn h
  else
    match res with
    | Error kind _ =>
        if nonfatal kind then h else upd (with_alive false) conn h
    | _ => h
    end.

Definition kept (res : Frame) : bool := negb (is_heartbeat res).

(** *** Reading a trace of [read] *)

(** The [conn.read()] calls of a trace, with the frames each yielded. *)
Definition reads (evs : list Event) : list (Conn * list Frame) :=
  flat_map (λ e, match e with EvRead c fs _ => [(c, fs)] | _ => [] end) evs.

(** All the frames that [c.read()] yielded, in order. *)
Definition drained (c : Conn) (evs : list Event) : list Frame :=
  flat_map (λ e, match e with
                 | EvRead c' fs _ => if decide (c' = c) then fs else []
                 | _ => []
                 end) evs.

Definition is_nop (c : Conn) (e : Event) : bool :=
  match e with EvNop c' => bool_decide (c' = c) | _ => false end.

(** The number of [c.nop()] calls. *)
Definition nops (c : Conn) (evs : list Event) : nat :=
  List.length (List.filter (is_nop c) evs).

Definition is_close (o : nat) (e : Event) : bool :=
  match e with EvClose c' => bool_decide (oid c' = o) | _ => false end.

(** Was [close()] called on the object [o]? *)
Definition closes (o : nat) (evs : list Event) : bool :=
  existsb (is_close o) evs.

(** The connections [select] reported readable. *)
Definition selected (evs : list Event) : list Conn :=
  flat_map (λ e, match e with
                 | EvSelect _ _ _ _ readable _ _ => readable
                 | _ => []
                 end) evs.

(** [s'] comes after [s] by the events [evs]: the client is the same, and a
    connection is alive after exactly when it was alive before and
    [close()] was not called on it. *)
Definition phase (s s' : State) (evs : list Event) : Prop :=
  self s' = self s ∧
  trace s' = trace s ++ evs ∧
  ∀ c, alive (heap s') c = (alive (heap s) c && negb (closes (oid c) evs))%bool.

(** The events of draining one connection. *)
Definition conn_events (conn : Conn) (fs : list Frame) (raised : bool)
    : list Event :=
  EvRead conn fs raised :: flat_map (frame_events conn) fs ++
  (if raised
   then [EvLog EXCEPTION "Failed to read from %s" [ArgConn conn];
         EvClose conn]
   else []).

(** Case analysis on membership in an explicit list. *)
Ltac elem_cases H :=
  rewrite ?elem_of_cons, ?elem_of_nil in H; destruct_or? H;
  try done; try discriminate.

(** The three reasons for which [read] closes a connection: a fatal
    [Error] frame came from it, its [read()] raised, or [select] reported
    an exceptional condition on it. *)
Definition fatal_drained (c : Conn) (evs : list Event) : Prop :=
  ∃ k d, Error k d ∈ drained c evs ∧ nonfatal k = false.
Definition read_raised (c : Conn) (evs : list Event) : Prop :=
  ∃ fs, EvRead c fs true ∈ evs.
Definition exceptional (c : Conn) (evs : list Event) : Prop :=
  ∃ r w x t rd wr ex, EvSelect r w x t rd wr ex ∈ evs ∧ c ∈ ex.
Definition close_cause (c : Conn) (evs : list Event) : Prop :=
  fatal_drained c evs ∨ read_raised c evs ∨ exceptional c evs.

(** *** Reading a trace of [discover] and [check_connections] *)

(** The lookupd queries of a trace, with their answers. *)
Definition lookups (evs : list Event) : list (string * LookupResult) :=
  flat_map (λ e, match e with EvLookup l _ r => [(l, r)] | _ => [] end) evs.

(** The producers of the answers, failed queries giving none. *)
Definition merged (lk : list (string * LookupResult)) : list (string * Z) :=
  flat_map (λ lr, match lr.2 with
                  | Producers ps => ps
                  | ClientException => []
                  end) lk.

(** Is [e] a call on the object [o]? *)
Definition touches (o : nat) (e : Event) : bool :=
  match e with
  | EvNew c _ | EvSetBlocking c _ | EvConnect c | EvClose c | EvNop c
  | EvRead c _ _ | EvFlush c => bool_decide (oid c = o)
  | _ => false
  end.

(** No other entry of the table is a handle of the object of [c]. *)
Definition no_alias (s : State) (k : string * Z) (c : Conn) : bool :=
  forallb (λ kc, implb (Nat.eqb (oid kc.2) (oid c)) (bool_decide (kc.1 = k)))
          (map_to_list (_connections (self s))).

(** [c] is an object of the store, held by the table under [k] only. *)
Definition sole_entry (s : State) (k : string * Z) (c : Conn) : Prop :=
  _connections (self s) !! k = Some c ∧
  (oid c < List.length (heap s))%nat ∧
  ∀ k' c', _connections (self s) !! k' = Some c' → oid c' = oid c → k' = k.

(** Between [s] and [s'] nothing was called on the object of [c], and its
    attributes are the same. *)
Definition untouched (c : Conn) (s s' : State) (evs : list Event) : Prop :=
  heap s' !! oid c = heap s !! oid c ∧ existsb (touches (oid c)) evs = false.

(** Every entry of the table is a handle of an object of the store, and
    no two entries are handles of the same object.  Python gives this for
    free; here it is an invariant of the methods. *)
Definition wf_state (s : State) : Prop :=
  ∀ k c, _connections (self s) !! k = Some c →
         (oid c < List.length (heap s))%nat ∧
         ∀ k' c', _connections (self s) !! k' = Some c' →
                  oid c' = oid c → k' = k.

(** [m] keeps the invariant [P], however it ends. *)
Definition preserves {A} (P : State → Prop) (m : M A) : Prop :=
  ∀ s, P s → P (m s).1.

(** ** Concrete worlds and clients *)

(** A world where every handshake succeeds, every lookupd knows the
    producer [a:4150], every watched connection is readable and yields a
    heartbeat, a failed [FIN], a fatal error and a plain response. *)
Definition W_up : World :=
  mkWorld (λ _ _, true)
          (λ _ _ _, Producers [("a", 4150)])
          (λ _ rlist wlist _ _, (rlist, wlist, []))
          (λ _ _, ([Response HEARTBEAT; Error FinFailed "E_FIN_FAILED";
                    Error (OtherKind "E_BAD_TOPIC") "E_BAD_TOPIC";
                    Response "OK"], false))
          (λ _ _, 1%nat).

(** The same, but the lookupd named [down] fails. *)
Definition W_one_down : World :=
  mkWorld (λ _ _, true)
          (λ _ l _, if String.eqb l "down" then ClientException
                    else Producers [("a", 4150)])
          (λ _ rlist wlist _ _, (rlist, wlist, []))
          (λ _ _, ([], false))
          (λ _ _, 0%nat).

Definition no_store : State := mkState blank [] [].

Definition c_a : Conn := mkConn 0 "a" 4150.
Definition c_b : Conn := mkConn 0 "b" 4150.

(** A client with one lookupd whose only connection, to [a:4150], is
    dead. *)
Definition s_dead_discovered : State :=
  mkState (mkClient [] {[ ("a", 4150) := c_a ]} default_timeout
                    ["lookupd:4161"] (Some "t") [])
          [mkConnState [] false false []] [].

(** A client with one lookupd whose only connection, to the static
    address [b:4150], is dead. *)
Definition s_dead_static : State :=
  mkState (mkClient [] {[ ("b", 4150) := c_b ]} default_timeout
                    ["lookupd:4161"] (Some "t") ["b:4150"])
          [mkConnState [] false false []] [].

(** A client with one live connection, to [a:4150]. *)
Definition s_live : State :=
  mkState (mkClient [] {[ ("a", 4150) := c_a ]} default_timeout
                    [] None ["a:4150"])
          [mkConnState [] false true []] [].

(** ** Vocabulary of the further properties *)

(** Every entry of the table is filed under the [(host, port)] of its
    connection. *)
Definition keyed (s : State) : Prop :=
  ∀ k c, _connections (self s) !! k = Some c → key_of c = k.

(** The connections constructed in a trace, in order. *)
Definition news (evs : list Event) : list Conn :=
  flat_map (λ e, match e with EvNew c _ => [c] | _ => [] end) evs.

(** The connections flushed in a trace, in order. *)
Definition flushes (evs : list Event) : list Conn :=
  flat_map (λ e, match e with EvFlush c => [c] | _ => [] end) evs.

(** The connections [select] reported writable. *)
Definition selected_writable (evs : list Event) : list Conn :=
  flat_map (λ e, match e with
                 | EvSelect _ _ _ _ _ writable _ => writable
                 | _ => []
                 end) evs.

(** All the connections [select] reported, for whatever reason. *)
Definition reported (evs : list Event) : list Conn :=
  flat_map (λ e, match e with
                 | EvSelect _ _ _ _ readable writable exceptable =>
                     readable ++ writable ++ exceptable
                 | _ => []
                 end) evs.

(** The [select] calls of a trace. *)
Definition selects (evs : list Event) : list Event :=
  List.filter (λ e, match e with EvSelect _ _ _ _ _ _ _ => true | _ => false end)
              evs.

(** [select] reports only what it was asked to watch. *)
Definition select_sound (W : World) : Prop :=
  ∀ tr rlist wlist xlist t,
    (w_select W tr rlist wlist xlist t).1.1 ⊆ rlist ∧
    (w_select W tr rlist wlist xlist t).1.2 ⊆ wlist ∧
    (w_select W tr rlist wlist xlist t).2 ⊆ xlist.

(** The live connections of the table: the snapshot [read] starts from. *)
Definition live (s : State) : list Conn :=
  List.filter (alive (heap s)) (connections s).

(** The endpoint a static address stands for, as [check_connections]
    reads it; [None] when it raises [ValueError]. *)
Definition static_endpoint (hostspec : string) : option (string * Z) :=
  match py_split ":" hostspec with
  | [h; port] => (λ p, (h, p)) <$> py_int port
  | _ => None
  end.

(** The number of colons of a string. *)
Fixpoint colons (s : string) : nat :=
  match s with
  | EmptyString => 0%nat
  | String c s' => ((if Ascii.eqb c ":" then 1 else 0) + colons s')%nat
  end.

(** Between [s] and [s'], by the events [evs]: no entry of the table was
    removed or replaced, no connection was closed, the connections
    constructed have pairwise different endpoints, none of which was in
    the table before, and are in the table after, and every other entry
    was there before. *)
Definition grows (s s' : State) (evs : list Event) : Prop :=
  trace s' = trace s ++ evs ∧
  (∀ k c, _connections (self s) !! k = Some c →
          _connections (self s') !! k = Some c) ∧
  (∀ c, EvClose c ∉ evs) ∧
  NoDup (key_of <$> news evs) ∧
  (∀ c, c ∈ news evs →
        _connections (self s) !! key_of c = None ∧
        _connections (self s') !! key_of c = Some c) ∧
  (∀ k c, _connections (self s') !! k = Some c →
          _connections (self s) !! k = Some c ∨
          (c ∈ news evs ∧ key_of c = k)).

(** A connection is alive after exactly when it was alive before and
    [close()] was not called on it. *)
Definition alive_after (s s' : State) (evs : list Event) : Prop :=
  ∀ c, alive (heap s') c = (alive (heap s) c && negb (closes (oid c) evs))%bool.

(** The one [select] call of a [read] that starts from [s], with what
    the world answers. *)
Definition the_select (W : World) (s : State) : Event :=
  let writes := List.filter (pending (heap s)) (live s) in
  let '(readable, writable, exceptable) :=
    w_select W (trace s) (live s) writes (live s) (_timeout (self s)) in
  EvSelect (live s) writes (live s) (_timeout (self s))
           readable writable exceptable.

(** A client with one lookupd and one live connection, to [a:4150], which
    is also a static address. *)
Definition s_live_discovered : State :=
  mkState (mkClient [] {[ ("a", 4150) := c_a ]} default_timeout
                    ["lookupd:4161"] (Some "t") ["a:4150"])
          [mkConnState [] false true []] [].

(** A client still to be connected: one lookupd, two static addresses. *)
Definition s_unconnected : State :=
  mkState (mkClient [] ∅ default_timeout ["lookupd:4161"] (Some "t")
                    ["b:4151"; "a:4150"]) [] [].

(** * Properties *)

(** ** The connection table: [add], [remove], [connect] *)

Lemma with_connections_same (s : State) :
  with_connections (_connections (self s)) s = s.
Proof. by destruct s as [[]]. Qed.

Lemma add_absent (c : Conn) (s : State) :
  _connections (self s) !! key_of c = None →
  add c s = (with_connections (<[key_of c := c]> (_connections (self s))) s,
             Ok (Some c)).
Proof. intros H. unfold add, bind, get. simpl. by rewrite H. Qed.

Lemma add_present (c old : Conn) (s : State) :
  _connections (self s) !! key_of c = Some old →
  add c s = (s, Ok None).
Proof. intros H. unfold add, bind, get. simpl. by rewrite H. Qed.

(** C6: [add(c)] returns [c] and inserts it under its [(host, port)] key
    when that key is absent; when the key is present it returns [None] and
    the whole state, the table included, is as before, so the old entry
    stays and [c] is not inserted. *)
Theorem add_inserts_once (c : Conn) (s : State) :
  (_connections (self s) !! key_of c = None →
   ∃ s', add c s = (s', Ok (Some c)) ∧
         _connections (self s') = <[key_of c := c]> (_connections (self s)) ∧
         _connections (self s') !! key_of c = Some c ∧
         heap s' = heap s ∧ trace s' = trace s) ∧
  (∀ old, _connections (self s) !! key_of c = Some old →
   add c s = (s, Ok None) ∧
   _connections (self (add c s).1) !! key_of c = Some old).
Proof.
  split.
  - intros H. eexists. split; [by apply add_absent|].
    simpl. by rewrite lookup_insert_eq.
  - intros old H. by rewrite (add_present c old s H).
Qed.

Lemma remove_absent (c : Conn) (s : State) :
  _connections (self s) !! key_of c = None →
  remove c s =
    (mkState (self s) (heap s)
       (trace s ++ [EvLog WARN "Failed to close %s: %s"
          [ArgConn c; ArgStr "'NoneType' object has no attribute 'close'"]]),
     Ok None).
Proof.
  intros H. unfold remove, bind, get, set_connections, log, emit, ret. simpl.
  rewrite H. simpl. rewrite (delete_id _ _ H).
  by destruct s as [[]].
Qed.

Lemma remove_present (c found : Conn) (s : State) :
  _connections (self s) !! key_of c = Some found →
  ∃ s', remove c s = (s', Ok (Some found)) ∧
        _connections (self s') = delete (key_of c) (_connections (self s)) ∧
        trace s' = trace s ++ [EvClose found] ∧
        alive (heap s') found = false.
Proof.
  intros H. unfold remove, close_connection, conn_close, update_conn,
    bind, get, set_connections, emit, set_heap, ret, alive. simpl.
  rewrite H. simpl.
  destruct (heap s !! oid found) as [cs|] eqn:E; simpl.
  - eexists. split; [reflexivity|]. simpl. repeat split.
    rewrite list_lookup_insert_eq; [done|]. by eapply lookup_lt_Some.
  - eexists. split; [reflexivity|]. simpl. repeat split. by rewrite E.
Qed.


Lemma new_Connection_eq (W : World) (h : string) (p : Z)
    (opts : IdentifyOptions) (s : State) :
  new_Connection W h p opts s =
    (mkState (self s)
       (heap s ++ [mkConnState opts true
                     (w_handshake W (trace s) (mkConn (List.length (heap s)) h p)) []])
       (trace s ++ [EvNew (mkConn (List.length (heap s)) h p) opts]),
     Ok (mkConn (List.length (heap s)) h p)).
Proof. reflexivity. Qed.

Lemma lookup_app_last {A} (l : list A) (x : A) :
  (l ++ [x]) !! List.length l = Some x.
Proof. by rewrite lookup_app_r, Nat.sub_diag. Qed.

Lemma insert_app_last {A} (l : list A) (x y : A) :
  <[List.length l := y]> (l ++ [x]) = l ++ [y].
Proof. by rewrite insert_app_r_alt, Nat.sub_diag. Qed.

Lemma connect_eq (W : World) (h : string) (p : Z) (s : State) :
  let c := mkConn (List.length (heap s)) h p in
  connect W h p s =
    match _connections (self s) !! (h, p) with
    | None => (with_connections (<[(h, p) := c]> (_connections (self s)))
                 (connected W h p s), Ok c)
    | Some _ => (connected W h p s, Ok c)
    end.
Proof.
  unfold connect, bind, get. rewrite new_Connection_eq. simpl.
  unfold conn_setblocking, update_conn, bind, emit, get, set_heap. simpl.
  rewrite lookup_app_last, insert_app_last. simpl.
  unfold add, bind, get, key_of. simpl.
  unfold connected. rewrite <- app_assoc. simpl.
  by destruct (_connections (self s) !! (h, p)).
Qed.

(** C10: when the table already holds an entry [old] for [(host, port)],
    [connect(host, port)] still returns the object it has just constructed;
    the client, and with it the table, is unchanged, so the key still maps
    to [old]; the new object sits in the store as the handshake left it,
    non-blocking, and the only calls made on it are the construction and
    [setblocking(0)]: it is neither inserted nor closed.  It is a different
    object from [old] when [old] is an object of the store. *)
Theorem connect_duplicate_returns_new (W : World) (h : string) (p : Z)
    (old : Conn) (s : State) :
  _connections (self s) !! (h, p) = Some old →
  let c := mkConn (List.length (heap s)) h p in
  ∃ s', connect W h p s = (s', Ok c) ∧
        self s' = self s ∧
        _connections (self s') !! (h, p) = Some old ∧
        heap s' = heap s ++ [mkConnState (_identify_options (self s)) false
                               (w_handshake W (trace s) c) []] ∧
        alive (heap s') c = w_handshake W (trace s) c ∧
        trace s' = trace s ++ [EvNew c (_identify_options (self s));
                               EvSetBlocking c 0] ∧
        ((oid old < List.length (heap s))%nat → c ≠ old).
Proof.
  intros H c. pose proof (connect_eq W h p s) as E. simpl in E.
  rewrite H in E. exists (connected W h p s). split; [exact E|].
  simpl. split_and!; try done.
  - unfold alive. simpl. by rewrite lookup_app_last.
  - intros Hlt <-. simpl in Hlt. lia.
Qed.

(** ** The readiness loop: [read] *)

Lemma filter_none {A} (f : A → bool) (l : list A) :
  (∀ x, x ∈ l → f x = false) → List.filter f l = [].
Proof.
  induction l as [|x l IH]; intros H; [done|]. simpl.
  rewrite (H x) by left. apply IH. intros y Hy. apply H. by right.
Qed.

(** C8: when no connection of the table is alive, [read()] returns the
    empty list and the state is exactly as before: the trace has no new
    event, so [select] was not called and no method of any connection
    was. *)
Theorem read_without_live_connections (W : World) (s : State) :
  (∀ c, c ∈ connections s → alive (heap s) c = false) →
  read W s = (s, Ok []).
Proof.
  intros H. unfold read, bind, get. simpl.
  by rewrite (filter_none _ _ H).
Qed.

Lemma update_conn_eq (f : ConnState → ConnState) (c : Conn) (s : State) :
  update_conn f c s = (mkState (self s) (upd f c (heap s)) (trace s), Ok tt).
Proof.
  unfold update_conn, upd, bind, get, set_heap, ret. simpl.
  destruct (heap s !! oid c); [done|]. by destruct s.
Qed.

Lemma alive_upd (f : ConnState → ConnState) (c c' : Conn)
    (h : list ConnState) :
  alive (upd f c h) c' =
    if decide (oid c' = oid c)
    then match h !! oid c with
         | Some cs => sock_alive (f cs)
         | None => false
         end
    else alive h c'.
Proof.
  unfold alive, upd. destruct (decide (oid c' = oid c)) as [->|Hne].
  - destruct (h !! oid c) as [cs|] eqn:E; [|by rewrite E].
    rewrite list_lookup_insert_eq; [done|]. by eapply lookup_lt_Some.
  - destruct (h !! oid c) as [cs|] eqn:E; [|done].
    by rewrite list_lookup_insert_ne.
Qed.

Lemma conn_close_eq (c : Conn) (s : State) :
  conn_close c s =
    (mkState (self s) (upd (with_alive false) c (heap s))
             (trace s ++ [EvClose c]), Ok tt).
Proof. unfold conn_close, bind, emit. by rewrite update_conn_eq. Qed.

Lemma conn_nop_eq (c : Conn) (s : State) :
  conn_nop c s =
    (mkState (self s)
       (upd (with_out_buffer (λ b, b ++ [NOP])) c (heap s))
       (trace s ++ [EvNop c]), Ok tt).
Proof. unfold conn_nop, bind, emit. by rewrite update_conn_eq. Qed.

Lemma handle_frame_eq (conn : Conn) (rs : list Frame) (res : Frame)
    (s : State) :
  handle_frame conn rs res s =
    (mkState (self s) (frame_heap conn res (heap s))
             (trace s ++ frame_events conn res),
     Ok (rs ++ List.filter kept [res])).
Proof.
  unfold handle_frame, frame_heap, frame_events, kept. simpl.
  destruct (is_heartbeat res) eqn:Hb; simpl.
  - unfold bind, log, emit. simpl. rewrite conn_nop_eq. simpl.
    by rewrite <- app_assoc, app_nil_r.
  - destruct res as [d|k d|]; simpl;
      try (destruct s; unfold bind, ret; simpl; by rewrite app_nil_r).
    destruct (nonfatal k); simpl.
    + destruct s; unfold bind, ret; simpl; by rewrite app_nil_r.
    + unfold bind, log, emit, close_connection. simpl.
      rewrite conn_close_eq. simpl. by rewrite <- app_assoc.
Qed.

Lemma handle_frames_eq (conn : Conn) (fs : list Frame) :
  ∀ (rs : list Frame) (s : State),
  fold_m (handle_frame conn) fs rs s =
    (mkState (self s) (fold_left (λ h res, frame_heap conn res h) fs (heap s))
             (trace s ++ flat_map (frame_events conn) fs),
     Ok (rs ++ List.filter kept fs)).
Proof.
  induction fs as [|res fs IH]; intros rs s.
  - simpl. destruct s. unfold ret. simpl. by rewrite !app_nil_r.
  - cbn [fold_m]. unfold bind at 1. rewrite handle_frame_eq.
    rewrite IH. cbn [self heap trace fold_left flat_map].
    rewrite <- !app_assoc. do 3 f_equal.
    simpl. by destruct (kept res).
Qed.

Lemma phase_refl (s : State) : phase s s [].
Proof.
  split_and!; [done|by rewrite app_nil_r|].
  intros c. simpl. by rewrite andb_true_r.
Qed.

Lemma phase_trans (s1 s2 s3 : State) (e1 e2 : list Event) :
  phase s1 s2 e1 → phase s2 s3 e2 → phase s1 s3 (e1 ++ e2).
Proof.
  intros (Hs1 & Ht1 & Ha1) (Hs2 & Ht2 & Ha2). split_and!.
  - congruence.
  - by rewrite Ht2, Ht1, app_assoc.
  - intros c. rewrite Ha2, Ha1. unfold closes. rewrite existsb_app.
    by rewrite negb_orb, andb_assoc.
Qed.

Lemma alive_upd_close (c c' : Conn) (h : list ConnState) :
  alive (upd (with_alive false) c h) c' =
    (alive h c' && negb (bool_decide (oid c = oid c')))%bool.
Proof.
  rewrite alive_upd. destruct (decide (oid c' = oid c)) as [E|E].
  - rewrite bool_decide_true by done. simpl. rewrite andb_false_r.
    by destruct (h !! oid c).
  - rewrite bool_decide_false by done. simpl. by rewrite andb_true_r.
Qed.

Lemma alive_upd_buffer (f : list Command → list Command) (c c' : Conn)
    (h : list ConnState) :
  alive (upd (with_out_buffer f) c h) c' = alive h c'.
Proof.
  rewrite alive_upd. destruct (decide (oid c' = oid c)) as [E|E]; [|done].
  unfold alive. rewrite E. by destruct (h !! oid c).
Qed.

Lemma alive_frame_heap (conn c : Conn) (res : Frame) (h : list ConnState) :
  alive (frame_heap conn res h) c =
    (alive h c && negb (closes (oid c) (frame_events conn res)))%bool.
Proof.
  unfold frame_heap, frame_events.
  destruct (is_heartbeat res); simpl.
  - by rewrite alive_upd_buffer, andb_true_r.
  - destruct res as [d|k d|]; simpl; rewrite ?andb_true_r; try done.
    destruct (nonfatal k); simpl; rewrite ?andb_true_r; [done|].
    by rewrite alive_upd_close, orb_false_r.
Qed.

Lemma alive_frames_heap (conn c : Conn) (fs : list Frame) :
  ∀ h, alive (fold_left (λ h res, frame_heap conn res h) fs h) c =
       (alive h c
        && negb (closes (oid c) (flat_map (frame_events conn) fs)))%bool.
Proof.
  induction fs as [|res fs IH]; intros h; simpl.
  - by rewrite andb_true_r.
  - rewrite IH, alive_frame_heap. unfold closes. rewrite existsb_app.
    by rewrite negb_orb, andb_assoc.
Qed.

Lemma read_conn_spec (W : World) (rs : list Frame) (conn : Conn) (s : State) :
  ∃ s', read_conn W rs conn s =
          (s', Ok (rs ++ List.filter kept (w_read W (trace s) conn).1)) ∧
        phase s s' (conn_events conn (w_read W (trace s) conn).1
                                     (w_read W (trace s) conn).2).
Proof.
  unfold read_conn, bind at 1, get. simpl.
  destruct (w_read W (trace s) conn) as [fs raised]. simpl.
  unfold bind at 1, emit. simpl. unfold bind at 1.
  rewrite handle_frames_eq. simpl.
  destruct raised; simpl.
  - unfold bind, log, emit, close_connection, ret. simpl.
    rewrite conn_close_eq. simpl. eexists. split; [reflexivity|].
    split_and!; simpl; [done| |].
    + unfold conn_events. by rewrite <- !app_assoc.
    + intros c. rewrite alive_upd_close, alive_frames_heap.
      unfold closes. rewrite existsb_app. simpl.
      by rewrite negb_orb, orb_false_r, andb_assoc.
  - unfold bind, ret. simpl. eexists. split; [reflexivity|].
    split_and!; simpl; [done| |].
    + unfold conn_events. by rewrite <- !app_assoc, app_nil_r.
    + intros c. by rewrite alive_frames_heap, app_nil_r.
Qed.

Section trace_lemmas.
Implicit Types (c conn : Conn) (evs a b : list Event) (fs : list Frame).

Lemma reads_app a b : reads (a ++ b) = reads a ++ reads b.
Proof. apply flat_map_app. Qed.
Lemma drained_app c a b : drained c (a ++ b) = drained c a ++ drained c b.
Proof. apply flat_map_app. Qed.
Lemma selected_app a b : selected (a ++ b) = selected a ++ selected b.
Proof. apply flat_map_app. Qed.
Lemma nops_app c a b : nops c (a ++ b) = (nops c a + nops c b)%nat.
Proof. unfold nops. by rewrite List.filter_app, length_app. Qed.

Lemma reads_frame_events conn fs :
  reads (flat_map (frame_events conn) fs) = [].
Proof.
  induction fs as [|res fs IH]; [done|]. simpl. rewrite reads_app, IH.
  unfold frame_events. destruct (is_heartbeat res); [done|].
  destruct res as [|k ?|]; try done. by destruct (nonfatal k).
Qed.

Lemma drained_frame_events c conn fs :
  drained c (flat_map (frame_events conn) fs) = [].
Proof.
  induction fs as [|res fs IH]; [done|]. simpl. rewrite drained_app, IH.
  unfold frame_events. destruct (is_heartbeat res); [done|].
  destruct res as [|k ?|]; try done. by destruct (nonfatal k).
Qed.

Lemma selected_frame_events conn fs :
  selected (flat_map (frame_events conn) fs) = [].
Proof.
  induction fs as [|res fs IH]; [done|]. simpl. rewrite selected_app, IH.
  unfold frame_events. destruct (is_heartbeat res); [done|].
  destruct res as [|k ?|]; try done. by destruct (nonfatal k).
Qed.

Lemma nops_frame_events c conn fs :
  nops c (flat_map (frame_events conn) fs) =
    if decide (conn = c) then List.length (List.filter is_heartbeat fs)
    else 0%nat.
Proof.
  induction fs as [|res fs IH]; simpl.
  - by destruct (decide (conn = c)).
  - rewrite nops_app, IH. unfold frame_events.
    destruct (is_heartbeat res) eqn:Hb; simpl.
    + unfold nops. simpl. destruct (decide (conn = c)).
      * by rewrite bool_decide_true.
      * by rewrite bool_decide_false.
    + destruct res as [|k ?|]; try done. by destruct (nonfatal k).
Qed.

Lemma close_in_frame_events c conn fs :
  EvClose c ∈ flat_map (frame_events conn) fs →
  c = conn ∧ ∃ k d, Error k d ∈ fs ∧ nonfatal k = false.
Proof.
  induction fs as [|res fs IH]; simpl; [by intros ?%elem_of_nil|].
  rewrite elem_of_app. intros [H|H].
  - unfold frame_events in H. destruct (is_heartbeat res).
    + elem_cases H.
    + destruct res as [|k d|]; try by apply elem_of_nil in H.
      destruct (nonfatal k) eqn:Hk; [by apply elem_of_nil in H|].
      elem_cases H. injection H as ->.
      split; [done|]. exists k, d. split; [left|done].
  - destruct (IH H) as (-> & k & d & Hin & Hk).
    split; [done|]. exists k, d. split; [by right|done].
Qed.

Lemma reads_conn_events conn fs raised :
  reads (conn_events conn fs raised) = [(conn, fs)].
Proof.
  unfold conn_events. simpl. rewrite reads_app, reads_frame_events.
  by destruct raised.
Qed.

Lemma drained_conn_events c conn fs raised :
  drained c (conn_events conn fs raised) =
    if decide (conn = c) then fs else [].
Proof.
  unfold conn_events. simpl. rewrite drained_app, drained_frame_events.
  destruct raised; simpl; by rewrite app_nil_r.
Qed.

Lemma selected_conn_events conn fs raised :
  selected (conn_events conn fs raised) = [].
Proof.
  unfold conn_events. simpl. rewrite selected_app, selected_frame_events.
  by destruct raised.
Qed.

Lemma nops_conn_events c conn fs raised :
  nops c (conn_events conn fs raised) =
    List.length (List.filter is_heartbeat (drained c (conn_events conn fs raised))).
Proof.
  rewrite drained_conn_events. unfold conn_events.
  change (EvRead conn fs raised :: ?l) with ([EvRead conn fs raised] ++ l).
  rewrite !nops_app, nops_frame_events.
  replace (nops c [EvRead conn fs raised]) with 0%nat by done.
  replace (nops c (if raised then _ else _)) with 0%nat
    by (by destruct raised).
  destruct (decide (conn = c)); simpl; lia.
Qed.
End trace_lemmas.

Lemma close_cause_app_l (c : Conn) (a b : list Event) :
  close_cause c a → close_cause c (a ++ b).
Proof.
  unfold close_cause, fatal_drained, read_raised, exceptional.
  intros [(k & d & H & Hk)|[(fs & H)|(r & w & x & t & rd & wr & ex & H & Hc)]].
  - left. exists k, d. rewrite drained_app, elem_of_app. auto.
  - right; left. exists fs. rewrite elem_of_app. auto.
  - right; right. exists r, w, x, t, rd, wr, ex. rewrite elem_of_app. auto.
Qed.

Lemma close_cause_app_r (c : Conn) (a b : list Event) :
  close_cause c b → close_cause c (a ++ b).
Proof.
  unfold close_cause, fatal_drained, read_raised, exceptional.
  intros [(k & d & H & Hk)|[(fs & H)|(r & w & x & t & rd & wr & ex & H & Hc)]].
  - left. exists k, d. rewrite drained_app, elem_of_app. auto.
  - right; left. exists fs. rewrite elem_of_app. auto.
  - right; right. exists r, w, x, t, rd, wr, ex. rewrite elem_of_app. auto.
Qed.

Lemma close_in_conn_events (c conn : Conn) (fs : list Frame) (raised : bool) :
  EvClose c ∈ conn_events conn fs raised →
  close_cause c (conn_events conn fs raised).
Proof.
  intros H. pose proof H as H0. unfold conn_events in H.
  apply elem_of_cons in H as [H|H]; [discriminate|].
  apply elem_of_app in H as [H|H].
  - apply close_in_frame_events in H as (-> & k & d & Hin & Hk).
    left. exists k, d. rewrite drained_conn_events.
    by rewrite decide_True.
  - destruct raised; [|by apply elem_of_nil in H].
    elem_cases H. injection H as ->.
    right; left. exists fs. left.
Qed.

Lemma fatal_closes_conn_events (c conn : Conn) (fs : list Frame)
    (raised : bool) :
  fatal_drained c (conn_events conn fs raised) →
  EvClose c ∈ conn_events conn fs raised.
Proof.
  intros (k & d & H & Hk). rewrite drained_conn_events in H.
  destruct (decide (conn = c)) as [->|]; [|by apply elem_of_nil in H].
  unfold conn_events. right. apply elem_of_app. left.
  induction fs as [|res fs IH]; [by apply elem_of_nil in H|].
  simpl. apply elem_of_app. apply elem_of_cons in H as [<-|H].
  - left. unfold frame_events. simpl. rewrite Hk. right; left.
  - right. by apply IH.
Qed.

Lemma fatal_drained_app (c : Conn) (a b : list Event) :
  fatal_drained c (a ++ b) → fatal_drained c a ∨ fatal_drained c b.
Proof.
  intros (k & d & H & Hk). rewrite drained_app, elem_of_app in H.
  destruct H; [left|right]; by exists k, d.
Qed.

(** [for conn in readable: ...] *)
Lemma read_loop_spec (W : World) (readable : list Conn) :
  ∀ (rs : list Frame) (s : State),
  ∃ s' evs,
    fold_m (read_conn W) readable rs s =
      (s', Ok (rs ++ flat_map (λ cf, List.filter kept cf.2) (reads evs))) ∧
    phase s s' evs ∧
    (reads evs).*1 = readable ∧
    selected evs = [] ∧
    (∀ c, nops c evs =
          List.length (List.filter is_heartbeat (drained c evs))) ∧
    (∀ c, EvClose c ∈ evs → close_cause c evs) ∧
    (∀ c, fatal_drained c evs → EvClose c ∈ evs).
Proof.
  induction readable as [|conn l IH]; intros rs s.
  - exists s, []. simpl. unfold ret. rewrite app_nil_r.
    split_and!; try done; [apply phase_refl| |].
    + by intros c ?%elem_of_nil.
    + by intros c (k & d & ?%elem_of_nil & _).
  - destruct (read_conn_spec W rs conn s) as (s1 & Hrc & Hph).
    set (fs := (w_read W (trace s) conn).1) in *.
    set (raised := (w_read W (trace s) conn).2) in *.
    destruct (IH (rs ++ List.filter kept fs) s1)
      as (s' & evs & Hl & Hph' & Hrd & Hsel & Hnop & Hcl & Hfat).
    exists s', (conn_events conn fs raised ++ evs).
    cbn [fold_m]. unfold bind at 1. rewrite Hrc, Hl.
    split_and!.
    + rewrite reads_app, reads_conn_events. simpl.
      by rewrite <- app_assoc.
    + by eapply phase_trans.
    + rewrite reads_app, reads_conn_events, fmap_app. simpl. by rewrite Hrd.
    + by rewrite selected_app, selected_conn_events, Hsel.
    + intros c. rewrite nops_app, drained_app, List.filter_app, length_app.
      by rewrite nops_conn_events, Hnop.
    + intros c [H|H]%elem_of_app.
      * by apply close_cause_app_l, close_in_conn_events.
      * by apply close_cause_app_r, Hcl.
    + intros c [H|H]%fatal_drained_app; apply elem_of_app.
      * left. by apply fatal_closes_conn_events.
      * right. by apply Hfat.
Qed.

Lemma conn_flush_spec (W : World) (c : Conn) (s : State) :
  ∃ s', conn_flush W c s = (s', Ok tt) ∧ phase s s' [EvFlush c].
Proof.
  unfold conn_flush, bind, get, emit. simpl. rewrite update_conn_eq. simpl.
  eexists. split; [reflexivity|]. split_and!; simpl; try done.
  intros c'. by rewrite alive_upd_buffer, andb_true_r.
Qed.

Lemma close_connection_spec (c : Conn) (s : State) :
  ∃ s', close_connection c s = (s', Ok tt) ∧ phase s s' [EvClose c].
Proof.
  unfold close_connection. rewrite conn_close_eq.
  eexists. split; [reflexivity|]. split_and!; simpl; try done.
  intros c'. by rewrite alive_upd_close, orb_false_r.
Qed.

(** A loop whose body adds one event. *)
Lemma for_each_spec {A} (body : A → M unit) (ev : A → Event) (l : list A) :
  (∀ x s, ∃ s', body x s = (s', Ok tt) ∧ phase s s' [ev x]) →
  ∀ s, ∃ s', for_each l body s = (s', Ok tt) ∧ phase s s' (ev <$> l).
Proof.
  intros Hbody. induction l as [|x l IH]; intros s.
  - exists s. split; [done|apply phase_refl].
  - destruct (Hbody x s) as (s1 & Hb & Hph).
    destruct (IH s1) as (s' & Hl & Hph').
    exists s'. cbn [for_each]. unfold bind. rewrite Hb. split; [done|].
    change (ev <$> x :: l) with ([ev x] ++ (ev <$> l)).
    by eapply phase_trans.
Qed.

Lemma flat_map_fmap_nil {A B C} (f : B → list C) (g : A → B) (l : list A) :
  (∀ x, f (g x) = []) → flat_map f (g <$> l) = [].
Proof. intros H. induction l as [|x l IH]; [done|]. simpl. by rewrite H. Qed.

Lemma nops_fmap_zero {A} (c : Conn) (g : A → Event) (l : list A) :
  (∀ x, is_nop c (g x) = false) → nops c (g <$> l) = 0%nat.
Proof.
  intros H. unfold nops. induction l as [|x l IH]; [done|]. simpl.
  by rewrite H.
Qed.

Lemma truthy_list_false {A} (l : list A) : truthy_list l = false → l = [].
Proof. by destruct l. Qed.

(** What one [read()] step does, read off the events [evs] it adds to the
    trace: it always returns; the frames it returns are those its
    [conn.read()] calls yielded, call after call, without the heartbeats;
    the connections read are the ones [select] reported readable, in that
    order; there is one [nop()] per heartbeat; and every [close()] has one
    of the three causes. *)
Lemma read_spec (W : World) (s : State) :
  ∃ s' rs evs,
    read W s = (s', Ok rs) ∧
    phase s s' evs ∧
    rs = flat_map (λ cf, List.filter kept cf.2) (reads evs) ∧
    (reads evs).*1 = selected evs ∧
    (∀ c, nops c evs =
          List.length (List.filter is_heartbeat (drained c evs))) ∧
    (∀ c, EvClose c ∈ evs → close_cause c evs) ∧
    (∀ c, fatal_drained c evs → EvClose c ∈ evs).
Proof.
  unfold read, bind at 1, get. simpl.
  set (conns := List.filter (alive (heap s)) (connections s)).
  destruct (truthy_list conns) eqn:Hlive; simpl.
  2:{ exists s, [], []. split_and!; try done; [apply phase_refl| |].
      - by intros c ?%elem_of_nil.
      - by intros c (k & d & ?%elem_of_nil & _). }
  set (writes := List.filter (pending (heap s)) conns).
  destruct (w_select W (trace s) conns writes conns (_timeout (self s)))
    as [[readable writable] exceptable].
  set (sel := EvSelect conns writes conns (_timeout (self s))
                       readable writable exceptable).
  unfold bind at 1, emit. simpl.
  set (s0 := mkState (self s) (heap s) (trace s ++ [sel])).
  assert (Hph0 : phase s s0 [sel]).
  { split_and!; try done. intros c. simpl. by rewrite andb_true_r. }
  destruct (truthy_list readable || truthy_list writable
            || truthy_list exceptable)%bool eqn:Hready; simpl.
  - destruct (read_loop_spec W readable [] s0)
      as (s1 & evr & Hl & Hph1 & Hrd & Hsel & Hnop & Hcl & Hfat).
    destruct (for_each_spec (conn_flush W) EvFlush writable
                (conn_flush_spec W) s1) as (s2 & Hfl & Hph2).
    destruct (for_each_spec close_connection EvClose exceptable
                close_connection_spec s2) as (s3 & Hcx & Hph3).
    unfold bind at 1. rewrite Hl. unfold bind at 1. rewrite Hfl.
    unfold bind at 1. rewrite Hcx. unfold ret.
    exists s3, (flat_map (λ cf, List.filter kept cf.2) (reads evr)),
      ([sel] ++ evr ++ (EvFlush <$> writable) ++ (EvClose <$> exceptable)).
    split_and!.
    + done.
    + eapply phase_trans; [done|]. eapply phase_trans; [done|].
      by eapply phase_trans.
    + rewrite !reads_app. unfold reads at 2 4 5.
      rewrite !flat_map_fmap_nil by done. simpl. by rewrite app_nil_r.
    + rewrite !reads_app, !selected_app. unfold reads at 1 3 4.
      unfold selected at 3 4.
      rewrite !flat_map_fmap_nil by done. simpl.
      by rewrite !app_nil_r, Hrd, Hsel, app_nil_r.
    + intros c. rewrite !nops_app, !drained_app.
      unfold drained at 1 3 4. rewrite !flat_map_fmap_nil by done.
      rewrite !nops_fmap_zero by done. simpl. rewrite app_nil_r, Hnop.
      replace (nops c [sel]) with 0%nat by done. lia.
    + intros c H. rewrite !elem_of_app in H. destruct H as [H|[H|[H|H]]].
      * elem_cases H.
      * apply close_cause_app_r, close_cause_app_l. by apply Hcl.
      * apply list_elem_of_fmap in H as (x & ? & _). discriminate.
      * apply list_elem_of_fmap in H as (x & [= ->] & Hx).
        right; right. exists conns, writes, conns, (_timeout (self s)),
          readable, writable, exceptable. split; [left|done].
    + intros c (k & d & H & Hk). rewrite !drained_app in H.
      unfold drained at 1 3 4 in H.
      rewrite !flat_map_fmap_nil in H by done. simpl in H.
      rewrite app_nil_r in H. rewrite !elem_of_app. right; left.
      apply Hfat. by exists k, d.
  - apply orb_false_elim in Hready as [Hready Hx].
    apply orb_false_elim in Hready as [Hr Hw].
    apply truthy_list_false in Hr, Hw, Hx. subst readable writable exceptable.
    unfold bind, log, emit, ret. simpl.
    eexists _, [], [sel; EvLog DEBUG "Timed out..." []].
    split; [reflexivity|]. split_and!; simpl; try done.
    + split_and!; simpl; [done|by rewrite <- app_assoc|].
      intros c. by rewrite andb_true_r.
    + intros c H. elem_cases H.
    + by intros c (k & d & ?%elem_of_nil & _).
Qed.




Lemma drained_sublist (c : Conn) (evs : list Event) :
  List.filter kept (drained c evs) `sublist_of`
  flat_map (λ cf, List.filter kept cf.2) (reads evs).
Proof.
  induction evs as [|e evs IH]; [done|].
  change (e :: evs) with ([e] ++ evs).
  rewrite drained_app, reads_app, List.filter_app, flat_map_app.
  destruct e; simpl; try done.
  destruct (decide (c0 = c)); simpl; rewrite !app_nil_r.
  - by apply sublist_app.
  - by apply sublist_inserts_l.
Qed.



(** C7: a [read()] step always returns, and the list it returns is made of
    one block per [conn.read()] call, in the order of the calls, each block
    being the frames that call yielded, in the order it yielded them, with
    the heartbeat responses left out and nothing else; the connections are
    read in the order [select] reported them readable.  So for every
    connection the frames it yielded, heartbeats removed, are a
    subsequence of the returned list. *)
Theorem read_preserves_wire_order (W : World) (s : State) :
  ∃ s' rs evs,
    read W s = (s', Ok rs) ∧
    trace s' = trace s ++ evs ∧
    (reads evs).*1 = selected evs ∧
    rs = flat_map (λ cf, List.filter (λ res, negb (is_heartbeat res)) cf.2)
                  (reads evs) ∧
    (∀ c, List.filter (λ res, negb (is_heartbeat res)) (drained c evs)
          `sublist_of` rs).
Proof.
  destruct (read_spec W s)
    as (s' & rs & evs & Hr & (Hself & Htr & Hal) & Hrs & Hsel & _).
  exists s', rs, evs. split_and!; try done.
  intros c. rewrite Hrs. apply drained_sublist.
Qed.

(** ** Discovery and [check_connections] *)

Lemma lookups_app (a b : list Event) : lookups (a ++ b) = lookups a ++ lookups b.
Proof. apply flat_map_app. Qed.

Lemma merged_app (a b : list (string * LookupResult)) :
  merged (a ++ b) = merged a ++ merged b.
Proof. apply flat_map_app. Qed.

(** The first loop of [discover] always ends normally: it changes nothing
    but the trace, asks every lookupd once and in order, returns the
    producers of the answers, and logs each failure. *)
Lemma query_lookupds_spec (W : World) (topic : option string)
    (lookupds : list string) :
  ∀ (producers : list (string * Z)) (s : State),
  ∃ evs,
    query_lookupds W lookupds topic producers s =
      (mkState (self s) (heap s) (trace s ++ evs),
       Ok (producers ++ merged (lookups evs))) ∧
    (lookups evs).*1 = lookupds ∧
    (∀ l, (l, ClientException) ∈ lookups evs →
          EvLog EXCEPTION "Failed to query %s" [ArgStr l] ∈ evs) ∧
    (∀ o, existsb (touches o) evs = false).
Proof.
  induction lookupds as [|l rest IH]; intros producers s.
  - exists []. simpl. unfold ret. rewrite !app_nil_r.
    split_and!; try done; [by destruct s|by intros l ?%elem_of_nil].
  - cbn [query_lookupds]. unfold bind at 1, get. cbn [fst snd].
    unfold bind at 1, emit. cbn [self heap trace].
    destruct (w_lookup W (trace s) l topic) as [ps|] eqn:E.
    + set (s1 := mkState _ _ _).
      destruct (IH (producers ++ ps) s1) as (evs & Hq & Hl & Hlog & Ht).
      exists (EvLookup l topic (Producers ps) :: evs).
      rewrite Hq. subst s1. cbn [self heap trace]. split_and!.
      * rewrite <- !app_assoc. simpl. done.
      * simpl. f_equal. exact Hl.
      * intros l' H. simpl in H. apply elem_of_cons in H as [H|H];
          [discriminate|]. right. by apply Hlog.
      * intros o. simpl. apply Ht.
    + unfold bind at 1, log, emit. cbn [self heap trace].
      set (s1 := mkState _ _ _).
      destruct (IH producers s1) as (evs & Hq & Hl & Hlog & Ht).
      exists (EvLookup l topic ClientException ::
              EvLog EXCEPTION "Failed to query %s" [ArgStr l] :: evs).
      rewrite Hq. subst s1. cbn [self heap trace]. split_and!.
      * rewrite <- !app_assoc. simpl. done.
      * simpl. f_equal. exact Hl.
      * intros l' H. simpl in H. apply elem_of_cons in H as [H|H].
        -- injection H as ->. right; left.
        -- right; right. by apply Hlog.
      * intros o. simpl. apply Ht.
Qed.

Lemma no_alias_spec (s : State) (k : string * Z) (c : Conn) :
  no_alias s k c = true →
  ∀ k' c', _connections (self s) !! k' = Some c' → oid c' = oid c → k' = k.
Proof.
  unfold no_alias. rewrite forallb_forall. intros H k' c' Hl Ho.
  specialize (H (k', c')). simpl in H. rewrite Ho, Nat.eqb_refl in H.
  simpl in H. apply bool_decide_eq_true in H; [done|].
  apply list_elem_of_In. by apply elem_of_map_to_list.
Qed.

Lemma untouched_refl (c : Conn) (s : State) : untouched c s s [].
Proof. done. Qed.

Lemma untouched_trans (c : Conn) (s1 s2 s3 : State) (e1 e2 : list Event) :
  untouched c s1 s2 e1 → untouched c s2 s3 e2 → untouched c s1 s3 (e1 ++ e2).
Proof.
  intros [H1 T1] [H2 T2]. split; [congruence|].
  by rewrite existsb_app, T1, T2.
Qed.

Lemma alive_untouched (c : Conn) (s s' : State) (evs : list Event) :
  untouched c s s' evs → alive (heap s') c = alive (heap s) c.
Proof. intros [H _]. unfold alive. by rewrite H. Qed.

(** Logging changes the trace only. *)
Lemma log_eq (lvl : LogLevel) (fmt : string) (args : list LogArg) (s : State) :
  log lvl fmt args s =
    (mkState (self s) (heap s) (trace s ++ [EvLog lvl fmt args]), Ok tt).
Proof. reflexivity. Qed.

(** [connect] on an absent key adds a new object, under that key; the
    objects already there are not touched. *)
Lemma connect_fresh_spec (W : World) (h : string) (p : Z) (s : State) :
  _connections (self s) !! (h, p) = None →
  ∃ s' cnew evs,
    connect W h p s = (s', Ok cnew) ∧
    trace s' = trace s ++ evs ∧
    lookups evs = [] ∧
    _connections (self s') = <[(h, p) := cnew]> (_connections (self s)) ∧
    ∀ k c, sole_entry s k c → sole_entry s' k c ∧ untouched c s s' evs.
Proof.
  intros Hn. pose proof (connect_eq W h p s) as E. simpl in E.
  rewrite Hn in E. rewrite E. clear E.
  set (cnew := mkConn (List.length (heap s)) h p).
  exists (with_connections (<[(h, p) := cnew]> (_connections (self s)))
            (connected W h p s)), cnew,
    [EvNew cnew (_identify_options (self s)); EvSetBlocking cnew 0].
  split_and!; try done.
  intros k c (Hk & Hlt & Hsole). split; [split_and!|split].
  - simpl. rewrite lookup_insert_ne; [done|]. intros <-. congruence.
  - simpl. rewrite length_app. lia.
  - simpl. intros k' c' Hl Ho.
    destruct (decide ((h, p) = k')) as [<-|Hne].
    + rewrite lookup_insert_eq in Hl. injection Hl as <-. simpl in Ho. lia.
    + rewrite lookup_insert_ne in Hl by done. by eapply Hsole.
  - simpl. by rewrite lookup_app_l.
  - simpl. rewrite bool_decide_false by lia. done.
Qed.

Lemma sole_entry_trace (s : State) (t : list Event) (k : string * Z) (c : Conn) :
  sole_entry s k c → sole_entry (mkState (self s) (heap s) t) k c.
Proof. done. Qed.

Lemma length_upd (f : ConnState → ConnState) (c : Conn) (h : list ConnState) :
  List.length (upd f c h) = List.length h.
Proof. unfold upd. destruct (h !! oid c); [apply length_insert|done]. Qed.

Lemma lookup_upd_ne (f : ConnState → ConnState) (c : Conn)
    (h : list ConnState) (o : nat) :
  o ≠ oid c → upd f c h !! o = h !! o.
Proof.
  intros Hne. unfold upd. destruct (h !! oid c); [|done].
  by rewrite list_lookup_insert_ne.
Qed.

Lemma conn_connect_eq (W : World) (c : Conn) (s : State) :
  conn_connect W c s =
    (mkState (self s)
       (upd (with_alive (w_handshake W (trace s) c)) c (heap s))
       (trace s ++ [EvConnect c]), Ok tt).
Proof.
  unfold conn_connect, bind, get, emit. simpl. by rewrite update_conn_eq.
Qed.

(** One round of the second loop of [discover]. *)
Lemma discover_one_spec (W : World) (new : list Conn) (hp : string * Z)
    (s : State) :
  ∃ s' new' evs,
    discover_one W new hp s = (s', Ok new') ∧
    trace s' = trace s ++ evs ∧
    lookups evs = [] ∧
    is_Some (_connections (self s') !! hp) ∧
    (∀ k c, _connections (self s) !! k = Some c →
            _connections (self s') !! k = Some c) ∧
    (∀ k c, sole_entry s k c →
            sole_entry s' k c ∧
            (k ≠ hp → untouched c s s' evs) ∧
            (k = hp → alive (heap s) c = false → EvConnect c ∈ evs)).
Proof.
  destruct hp as [h p]. unfold discover_one, bind at 1, get. cbn [fst snd].
  destruct (_connections (self s) !! (h, p)) as [conn|] eqn:E.
  - destruct (alive (heap s) conn) eqn:Ha; cbn [negb].
    + unfold bind, ret. rewrite log_eq.
      eexists _, new, [_]. split; [reflexivity|].
      split_and!; try done.
      intros k c Hs. split_and!; [done|done|].
      intros -> Hd. destruct Hs as (Hk & _). congruence.
    + unfold bind, ret. rewrite log_eq, conn_connect_eq. cbn [self heap trace].
      eexists _, new, [_; EvConnect conn]. split; [reflexivity|].
      split_and!; cbn [self heap trace];
        [by rewrite <- app_assoc|done|by rewrite E|done|].
      intros k c (Hk & Hlt & Hsole). split_and!.
      * split_and!; simpl; [done|by rewrite length_upd|done].
      * intros Hne. split; simpl.
        -- apply lookup_upd_ne. intros Ho. apply Hne.
           symmetry. by eapply Hsole.
        -- rewrite orb_false_r. apply bool_decide_eq_false. intros Ho.
           apply Hne. symmetry. by eapply Hsole.
      * intros -> _. assert (conn = c) as -> by congruence. right; left.
  - unfold bind at 1. rewrite log_eq.
    set (s0 := mkState _ _ _).
    destruct (connect_fresh_spec W h p s0 E)
      as (s' & cnew & evs & Hc & Ht & Hlk & Htab & Hsole).
    unfold bind, ret. rewrite Hc.
    eexists s', _, (_ :: evs). split; [reflexivity|].
    split_and!.
    + rewrite Ht. simpl. by rewrite <- app_assoc.
    + done.
    + rewrite Htab. by rewrite lookup_insert_eq.
    + intros k c Hk. rewrite Htab. rewrite lookup_insert_ne; [done|].
      intros <-. simpl in E. congruence.
    + intros k c Hs. destruct (Hsole k c Hs) as [Hs' [Hh Hev]].
      split_and!; [done| |].
      * intros _. split; [done|]. simpl. done.
      * intros -> _. destruct Hs as (Hk & _). congruence.
Qed.

(** The second loop of [discover]. *)
Lemma discover_loop_spec (W : World) (producers : list (string * Z)) :
  ∀ (new : list Conn) (s : State),
  ∃ s' new' evs,
    fold_m (discover_one W) producers new s = (s', Ok new') ∧
    trace s' = trace s ++ evs ∧
    lookups evs = [] ∧
    (∀ hp, hp ∈ producers → is_Some (_connections (self s') !! hp)) ∧
    (∀ k c, _connections (self s) !! k = Some c →
            _connections (self s') !! k = Some c) ∧
    (∀ k c, sole_entry s k c →
            sole_entry s' k c ∧
            (k ∉ producers → untouched c s s' evs) ∧
            (k ∈ producers → alive (heap s) c = false → EvConnect c ∈ evs)).
Proof.
  induction producers as [|hp rest IH]; intros new s.
  - exists s, new, []. split; [done|]. rewrite app_nil_r.
    split_and!; try done; [by intros hp ?%elem_of_nil|].
    intros k c Hs. split_and!; [done|done|by intros ?%elem_of_nil].
  - destruct (discover_one_spec W new hp s)
      as (s1 & new1 & e1 & H1 & Ht1 & Hl1 & Hin1 & Hmono1 & Hs1).
    destruct (IH new1 s1)
      as (s' & new' & e2 & H2 & Ht2 & Hl2 & Hin2 & Hmono2 & Hs2).
    exists s', new', (e1 ++ e2). cbn [fold_m]. unfold bind. rewrite H1, H2.
    split; [done|]. split_and!.
    + by rewrite Ht2, Ht1, app_assoc.
    + by rewrite lookups_app, Hl1, Hl2.
    + intros hp' [->|H]%elem_of_cons; [|by apply Hin2].
      destruct Hin1 as [c Hc]. exists c. by apply Hmono2.
    + intros k c Hk. by apply Hmono2, Hmono1.
    + intros k c Hs. destruct (Hs1 k c Hs) as (Hs' & Hu1 & Hc1).
      destruct (Hs2 k c Hs') as (Hs'' & Hu2 & Hc2).
      split_and!; [done| |].
      * intros Hn. rewrite not_elem_of_cons in Hn. destruct Hn as [Hne Hn].
        eapply untouched_trans; eauto.
      * intros Hin Hd. apply elem_of_app.
        destruct (decide (k = hp)) as [->|Hne]; [left; by apply Hc1|].
        right. apply Hc2.
        -- apply elem_of_cons in Hin as [?|?]; [done|done].
        -- rewrite (alive_untouched c s s1 e1); [done|]. by apply Hu1.
Qed.

(** [Client.discover] always ends normally. *)
Lemma discover_spec (W : World) (topic : option string) (s : State) :
  ∃ s' new evs,
    discover W topic s = (s', Ok new) ∧
    trace s' = trace s ++ evs ∧
    (lookups evs).*1 = _lookupd (self s) ∧
    (∀ l, (l, ClientException) ∈ lookups evs →
          EvLog EXCEPTION "Failed to query %s" [ArgStr l] ∈ evs) ∧
    (∀ hp, hp ∈ merged (lookups evs) →
           is_Some (_connections (self s') !! hp)) ∧
    (∀ k c, _connections (self s) !! k = Some c →
            _connections (self s') !! k = Some c) ∧
    (∀ k c, sole_entry s k c →
            sole_entry s' k c ∧
            (k ∉ merged (lookups evs) → untouched c s s' evs) ∧
            (k ∈ merged (lookups evs) → alive (heap s) c = false →
             EvConnect c ∈ evs)).
Proof.
  unfold discover, bind at 1, get. cbn [fst snd].
  destruct (query_lookupds_spec W topic (_lookupd (self s)) [] s)
    as (e1 & Hq & Hl & Hlog & Ht).
  unfold bind at 1. rewrite Hq. simpl app.
  set (s1 := mkState (self s) (heap s) (trace s ++ e1)).
  destruct (discover_loop_spec W (merged (lookups e1)) [] s1)
    as (s' & new & e2 & Hd & Ht2 & Hl2 & Hin & Hmono & Hsole).
  rewrite Hd. exists s', new, (e1 ++ e2).
  rewrite lookups_app, Hl2, app_nil_r.
  split_and!; try done.
  - rewrite Ht2. subst s1. cbn [trace]. by rewrite app_assoc.
  - intros l H. apply elem_of_app. left. by apply Hlog.
  - intros k c Hs. destruct (Hsole k c Hs) as (Hs' & Hu & Hc).
    split_and!; [done| |].
    + intros Hn. apply (untouched_trans c s s1 s'); [|by apply Hu].
      split; [done|apply Ht].
    + intros Hi Hdead. apply elem_of_app. right. by apply Hc.
Qed.

(** One round of the loop of [check_connections]: it connects to an
    absent endpoint and does nothing on a present one; a malformed
    [host:port] raises [ValueError]. *)
Lemma check_hostspec_spec (W : World) (hostspec : string) (s : State) :
  ∃ s' r evs,
    check_hostspec W hostspec s = (s', r) ∧
    r ≠ Raise AssertionError ∧
    trace s' = trace s ++ evs ∧
    lookups evs = [] ∧
    (∀ k c, _connections (self s) !! k = Some c →
            _connections (self s') !! k = Some c) ∧
    (∀ k c, sole_entry s k c → sole_entry s' k c ∧ untouched c s s' evs).
Proof.
  assert (Hraise : ∃ s' r evs,
    @raise unit ValueError s = (s', r) ∧
    r ≠ Raise AssertionError ∧
    trace s' = trace s ++ evs ∧
    lookups evs = [] ∧
    (∀ k c, _connections (self s) !! k = Some c →
            _connections (self s') !! k = Some c) ∧
    (∀ k c, sole_entry s k c → sole_entry s' k c ∧ untouched c s s' evs)).
  { exists s, (Raise ValueError), []. rewrite app_nil_r. by split_and!. }
  unfold check_hostspec.
  destruct (py_split ":" hostspec) as [|h [|port [|? ?]]]; try exact Hraise.
  destruct (py_int port) as [p|]; [|exact Hraise].
  unfold bind at 1, get. cbn [fst snd].
  destruct (_connections (self s) !! (h, p)) as [conn|] eqn:E.
  - exists s, (Ok tt), []. rewrite app_nil_r.
    split; [by destruct (negb (alive (heap s) conn))|]. by split_and!.
  - unfold bind at 1. rewrite log_eq.
    set (s0 := mkState _ _ _).
    destruct (connect_fresh_spec W h p s0 E)
      as (s' & cnew & evs & Hc & Ht & Hlk & Htab & Hsole).
    unfold bind, ret. rewrite Hc.
    exists s', (Ok tt),
      (EvLog INFO "Connecting to %s:%s" [ArgStr h; ArgInt p] :: evs).
    split; [reflexivity|].
    split_and!; [discriminate| |exact Hlk| |].
    + rewrite Ht. simpl. by rewrite <- app_assoc.
    + intros k c Hk. rewrite Htab. rewrite lookup_insert_ne; [done|].
      intros <-. simpl in E. congruence.
    + intros k c Hs. destruct (Hsole k c Hs) as [Hs' [Hh Hev]].
      split; [done|]. by split.
Qed.

(** The loop of [check_connections] over the static addresses. *)
Lemma static_loop_spec (W : World) (addrs : list string) :
  ∀ s, ∃ s' r evs,
    for_each addrs (check_hostspec W) s = (s', r) ∧
    r ≠ Raise AssertionError ∧
    trace s' = trace s ++ evs ∧
    lookups evs = [] ∧
    (∀ k c, _connections (self s) !! k = Some c →
            _connections (self s') !! k = Some c) ∧
    (∀ k c, sole_entry s k c → sole_entry s' k c ∧ untouched c s s' evs).
Proof.
  induction addrs as [|a rest IH]; intros s.
  - exists s, (Ok tt), []. rewrite app_nil_r. by split_and!.
  - destruct (check_hostspec_spec W a s)
      as (s1 & r1 & e1 & H1 & Hr1 & Ht1 & Hl1 & Hm1 & Hs1).
    cbn [for_each]. unfold bind. rewrite H1.
    destruct r1 as [[]|e].
    + destruct (IH s1) as (s' & r & e2 & H2 & Hr2 & Ht2 & Hl2 & Hm2 & Hs2).
      exists s', r, (e1 ++ e2). rewrite H2. split_and!; try done.
      * by rewrite Ht2, Ht1, app_assoc.
      * by rewrite lookups_app, Hl1, Hl2.
      * intros k c Hk. by apply Hm2, Hm1.
      * intros k c Hs. destruct (Hs1 k c Hs) as [Hs' Hu1].
        destruct (Hs2 k c Hs') as [Hs'' Hu2]. split; [done|].
        by eapply untouched_trans.
    + exists s1, (Raise e), e1. by split_and!.
Qed.

(** [Client.check_connections] *)
Lemma check_connections_spec (W : World) (s : State) :
  ∃ s' r evs,
    check_connections W s = (s', r) ∧
    r ≠ Raise AssertionError ∧
    trace s' = trace s ++ evs ∧
    (∀ k c, _connections (self s) !! k = Some c →
            _connections (self s') !! k = Some c) ∧
    (∀ k c, sole_entry s k c →
            sole_entry s' k c ∧
            (k ∉ merged (lookups evs) → untouched c s s' evs) ∧
            (k ∈ merged (lookups evs) → alive (heap s) c = false →
             EvConnect c ∈ evs)).
Proof.
  unfold check_connections, bind at 1, get. cbn [fst snd].
  destruct (truthy_list (_lookupd (self s))).
  - destruct (discover_spec W (_topic (self s)) s)
      as (s1 & new & e1 & Hd & Ht1 & _ & _ & _ & Hm1 & Hs1).
    destruct (static_loop_spec W (_nsqd_tcp_addresses (self s)) s1)
      as (s' & r & e2 & Hl & Hr & Ht2 & Hlk2 & Hm2 & Hs2).
    unfold bind at 1. unfold bind at 1. rewrite Hd. unfold ret at 1.
    rewrite Hl. exists s', r, (e1 ++ e2).
    rewrite lookups_app, Hlk2, app_nil_r.
    split_and!; try done.
    + by rewrite Ht2, Ht1, app_assoc.
    + intros k c Hk. by apply Hm2, Hm1.
    + intros k c Hs. destruct (Hs1 k c Hs) as (Hs' & Hu1 & Hc1).
      destruct (Hs2 k c Hs') as [Hs'' Hu2]. split_and!; [done| |].
      * intros Hn. eapply untouched_trans; eauto.
      * intros Hi Hdead. apply elem_of_app. left. by apply Hc1.
  - destruct (static_loop_spec W (_nsqd_tcp_addresses (self s)) s)
      as (s' & r & e2 & Hl & Hr & Ht2 & Hlk2 & Hm2 & Hs2).
    unfold bind at 1, ret at 1. rewrite Hl. exists s', r, e2.
    rewrite Hlk2. split_and!; try done.
    intros k c Hs. destruct (Hs2 k c Hs) as [Hs' Hu]. split_and!; try done.
    by intros ?%elem_of_nil.
Qed.

(** C9: [discover] always ends normally, whatever the lookupds answer: it
    asks every configured lookupd, once and in order, also after one has
    failed; a [ClientException] is answered by an entry in the log and
    nothing else; and every producer that any lookupd returned has a
    connection in the table afterwards. *)
Theorem discover_survives_lookupd_failures (W : World)
    (topic : option string) (s : State) :
  ∃ s' new evs,
    discover W topic s = (s', Ok new) ∧
    trace s' = trace s ++ evs ∧
    (lookups evs).*1 = _lookupd (self s) ∧
    (∀ l, (l, ClientException) ∈ lookups evs →
          EvLog EXCEPTION "Failed to query %s" [ArgStr l] ∈ evs) ∧
    (∀ l ps hp, (l, Producers ps) ∈ lookups evs → hp ∈ ps →
                is_Some (_connections (self s') !! hp)).
Proof.
  destruct (discover_spec W topic s)
    as (s' & new & evs & Hd & Ht & Hl & Hlog & Hin & _).
  exists s', new, evs. split_and!; try done.
  intros l ps hp Hlk Hhp. apply Hin. unfold merged.
  apply list_elem_of_In, in_flat_map. exists (l, Producers ps).
  split; by apply list_elem_of_In.
Qed.

(** C4, as amended: construction fails with an [AssertionError], before
    anything is set or done, exactly when the list of lookupd addresses is
    non-empty and [topic] is [None] or the empty string; in every other
    case it does not fail with that error. *)
Theorem init_asserts_topic_for_lookupd (W : World)
    (lookupd_http_addresses nsqd_tcp_addresses : option (list string))
    (topic : option string) (timeout : Q) (identify : IdentifyOptions)
    (s : State) :
  let construction :=
    __init__ W lookupd_http_addresses nsqd_tcp_addresses topic timeout
             identify s in
  let no_topic_for_lookupd :=
    default [] lookupd_http_addresses ≠ [] ∧
    (topic = None ∨ topic = Some EmptyString) in
  (no_topic_for_lookupd → construction = (s, Raise AssertionError)) ∧
  (¬ no_topic_for_lookupd → construction.2 ≠ Raise AssertionError).
Proof.
  unfold __init__. split.
  - intros [Hl Ht]. destruct (default [] lookupd_http_addresses); [done|].
    by destruct Ht as [-> | ->].
  - intros Hn.
    destruct (truthy_list (default [] lookupd_http_addresses)
              && negb (truthy_topic topic))%bool eqn:E.
    + exfalso. apply Hn. apply andb_prop in E as [El Et]. split.
      * by destruct (default [] lookupd_http_addresses).
      * destruct topic as [[|]|]; auto; done.
    + unfold bind, set_self. cbn [fst snd].
      match goal with |- (check_connections W ?s0).2 ≠ _ =>
        destruct (check_connections_spec W s0) as (s' & r & evs & Hc & Hr & _)
      end.
      by rewrite Hc.
Qed.

(** C1, as amended: a connection that the table holds but that is not
    alive is still in the table after [check_connections]; if no lookupd
    returned its endpoint during the call, nothing was called on it and
    its attributes are what they were, which is the case of an endpoint
    that is only statically configured; if a lookupd returned its endpoint,
    [connect()] was called on it. *)
Theorem check_connections_dead_connection (W : World) (s : State)
    (k : string * Z) (c : Conn) :
  _connections (self s) !! k = Some c →
  (oid c < List.length (heap s))%nat →
  no_alias s k c = true →
  alive (heap s) c = false →
  ∃ s' r evs,
    check_connections W s = (s', r) ∧
    trace s' = trace s ++ evs ∧
    _connections (self s') !! k = Some c ∧
    (k ∉ merged (lookups evs) →
     heap s' !! oid c = heap s !! oid c ∧
     existsb (touches (oid c)) evs = false) ∧
    (k ∈ merged (lookups evs) → EvConnect c ∈ evs).
Proof.
  intros Hk Hlt Hna Hdead.
  assert (Hs : sole_entry s k c).
  { split_and!; [done|done|]. by apply no_alias_spec. }
  destruct (check_connections_spec W s) as (s' & r & evs & Hc & _ & Ht & Hm & H).
  destruct (H k c Hs) as (_ & Hu & Hco).
  exists s', r, evs. split_and!; try done.
  - by apply Hm.
  - intros Hin. by apply Hco.
Qed.

(** ** The store invariant *)

Lemma preserves_ret {A} (P : State → Prop) (a : A) : preserves P (ret a).
Proof. by intros s. Qed.

Lemma preserves_raise {A} (P : State → Prop) (e : Exn) :
  preserves P (@raise A e).
Proof. by intros s. Qed.

Lemma preserves_get (P : State → Prop) : preserves P get.
Proof. by intros s. Qed.

Lemma preserves_bind {A B} (P : State → Prop) (m : M A) (k : A → M B) :
  preserves P m → (∀ a, preserves P (k a)) → preserves P (bind m k).
Proof.
  intros Hm Hk s Hs. unfold bind. specialize (Hm s Hs).
  destruct (m s) as [s' [a|e]]; [by apply Hk|done].
Qed.

Lemma preserves_for_each {A} (P : State → Prop) (body : A → M unit)
    (l : list A) :
  (∀ x, preserves P (body x)) → preserves P (for_each l body).
Proof.
  intros Hb. induction l as [|x l IH]; [apply preserves_ret|].
  cbn [for_each]. apply preserves_bind; [apply Hb|by intros _].
Qed.

Lemma preserves_fold_m {A B} (P : State → Prop) (f : B → A → M B)
    (l : list A) :
  (∀ b x, preserves P (f b x)) → ∀ b, preserves P (fold_m f l b).
Proof.
  intros Hf. induction l as [|x l IH]; intros b; [apply preserves_ret|].
  cbn [fold_m]. apply preserves_bind; [apply Hf|apply IH].
Qed.

Lemma wf_emit (e : Event) : preserves wf_state (emit e).
Proof. by intros s. Qed.

Lemma wf_update_conn (f : ConnState → ConnState) (c : Conn) :
  preserves wf_state (update_conn f c).
Proof.
  intros s Hs. rewrite update_conn_eq. intros k c' Hk.
  cbn [fst self heap] in *. rewrite length_upd. by apply Hs.
Qed.

Lemma wf_conn_close (c : Conn) : preserves wf_state (conn_close c).
Proof.
  apply preserves_bind; [apply wf_emit|intros _; apply wf_update_conn].
Qed.

Lemma wf_conn_nop (c : Conn) : preserves wf_state (conn_nop c).
Proof.
  apply preserves_bind; [apply wf_emit|intros _; apply wf_update_conn].
Qed.

Lemma wf_conn_flush (W : World) (c : Conn) :
  preserves wf_state (conn_flush W c).
Proof.
  apply preserves_bind; [apply preserves_get|intros s].
  apply preserves_bind; [apply wf_emit|intros _; apply wf_update_conn].
Qed.

Lemma wf_conn_connect (W : World) (c : Conn) :
  preserves wf_state (conn_connect W c).
Proof.
  apply preserves_bind; [apply preserves_get|intros s].
  apply preserves_bind; [apply wf_emit|intros _; apply wf_update_conn].
Qed.

Lemma wf_connect (W : World) (h : string) (p : Z) :
  preserves wf_state (connect W h p).
Proof.
  intros s Hs. pose proof (connect_eq W h p s) as E. cbn zeta in E.
  rewrite E. clear E.
  destruct (_connections (self s) !! (h, p)) as [old|] eqn:Ho.
  - intros k c Hk. cbn [fst connected self heap] in *.
    rewrite length_app. destruct (Hs k c Hk) as [Hlt Hu].
    split; [lia|done].
  - intros k c Hk. cbn [fst with_connections connected self heap
                         _connections] in *.
    rewrite length_app. cbn [List.length].
    destruct (decide ((h, p) = k)) as [<-|Hne].
    + rewrite lookup_insert_eq in Hk. injection Hk as <-. cbn [oid].
      split; [lia|]. intros k' c' Hk' Ho'.
      destruct (decide ((h, p) = k')) as [|Hne']; [done|].
      rewrite lookup_insert_ne in Hk' by done.
      destruct (Hs k' c' Hk') as [Hlt _]. lia.
    + rewrite lookup_insert_ne in Hk by done.
      destruct (Hs k c Hk) as [Hlt Hu]. split; [lia|].
      intros k' c' Hk' Ho'.
      destruct (decide ((h, p) = k')) as [<-|Hne'].
      * rewrite lookup_insert_eq in Hk'. injection Hk' as <-.
        cbn [oid] in Ho'. lia.
      * rewrite lookup_insert_ne in Hk' by done. by eapply Hu.
Qed.

Lemma wf_query_lookupds (W : World) (topic : option string)
    (lookupds : list string) :
  ∀ producers, preserves wf_state (query_lookupds W lookupds topic producers).
Proof.
  induction lookupds as [|l rest IH]; intros producers;
    [apply preserves_ret|].
  cbn [query_lookupds]. apply preserves_bind; [apply preserves_get|intros s].
  apply preserves_bind; [apply wf_emit|intros _].
  destruct (w_lookup W (trace s) l topic); [apply IH|].
  apply preserves_bind; [apply wf_emit|intros _; apply IH].
Qed.

Lemma wf_discover_one (W : World) (new : list Conn) (hp : string * Z) :
  preserves wf_state (discover_one W new hp).
Proof.
  destruct hp as [h p]. unfold discover_one.
  apply preserves_bind; [apply preserves_get|intros s].
  destruct (_connections (self s) !! (h, p)) as [conn|].
  - destruct (negb (alive (heap s) conn)).
    + apply preserves_bind; [apply wf_emit|intros _].
      apply preserves_bind; [apply wf_conn_connect|intros _].
      apply preserves_ret.
    + apply preserves_bind; [apply wf_emit|intros _; apply preserves_ret].
  - apply preserves_bind; [apply wf_emit|intros _].
    apply preserves_bind; [apply wf_connect|intros c; apply preserves_ret].
Qed.

Lemma wf_discover (W : World) (topic : option string) :
  preserves wf_state (discover W topic).
Proof.
  apply preserves_bind; [apply preserves_get|intros s].
  apply preserves_bind; [apply wf_query_lookupds|intros producers].
  apply preserves_fold_m. intros b x. apply wf_discover_one.
Qed.

Lemma wf_check_hostspec (W : World) (hostspec : string) :
  preserves wf_state (check_hostspec W hostspec).
Proof.
  unfold check_hostspec.
  destruct (py_split ":" hostspec) as [|h [|port [|? ?]]];
    try apply preserves_raise.
  destruct (py_int port) as [p|]; [|apply preserves_raise].
  apply preserves_bind; [apply preserves_get|intros s].
  destruct (_connections (self s) !! (h, p)) as [conn|].
  - destruct (negb (alive (heap s) conn)); apply preserves_ret.
  - apply preserves_bind; [apply wf_emit|intros _].
    apply preserves_bind; [apply wf_connect|intros c; apply preserves_ret].
Qed.

Lemma wf_check_connections (W : World) :
  preserves wf_state (check_connections W).
Proof.
  apply preserves_bind; [apply preserves_get|intros s].
  apply preserves_bind.
  - destruct (truthy_list (_lookupd (self s))); [|apply preserves_ret].
    apply preserves_bind; [apply wf_discover|intros _; apply preserves_ret].
  - intros _. apply preserves_for_each. apply wf_check_hostspec.
Qed.

Lemma wf_read (W : World) : preserves wf_state (read W).
Proof.
  unfold read. apply preserves_bind; [apply preserves_get|intros s].
  cbn zeta. destruct (negb (truthy_list _)); [apply preserves_ret|].
  destruct (w_select _ _ _ _ _ _) as [[readable writable] exceptable].
  apply preserves_bind; [apply wf_emit|intros _].
  destruct (negb (_ || _ || _)).
  { apply preserves_bind; [apply wf_emit|intros _; apply preserves_ret]. }
  apply preserves_bind.
  - apply preserves_fold_m. intros rs conn. unfold read_conn.
    apply preserves_bind; [apply preserves_get|intros s0].
    destruct (w_read W (trace s0) conn) as [frames raised].
    apply preserves_bind; [apply wf_emit|intros _].
    apply preserves_bind.
    + apply preserves_fold_m. intros rs' res. unfold handle_frame.
      destruct (is_heartbeat res).
      * apply preserves_bind; [apply wf_emit|intros _].
        apply preserves_bind; [apply wf_conn_nop|intros _; apply preserves_ret].
      * apply preserves_bind; [|intros _; apply preserves_ret].
        destruct res as [|k ?|]; try apply preserves_ret.
        destruct (negb (nonfatal k)); [|apply preserves_ret].
        apply preserves_bind; [apply wf_emit|intros _; apply wf_conn_close].
    + intros rs'. apply preserves_bind; [|intros _; apply preserves_ret].
      destruct raised; [|apply preserves_ret].
      apply preserves_bind; [apply wf_emit|intros _; apply wf_conn_close].
  - intros rs. apply preserves_bind.
    + apply preserves_for_each. apply wf_conn_flush.
    + intros _. apply preserves_bind; [|intros _; apply preserves_ret].
      apply preserves_for_each. apply wf_conn_close.
Qed.

(** A client that [__init__] has built satisfies the store invariant,
    whatever the store was before. *)
Lemma wf_init (W : World)
    (lookupd_http_addresses nsqd_tcp_addresses : option (list string))
    (topic : option string) (timeout : Q) (identify : IdentifyOptions)
    (s : State) :
  (__init__ W lookupd_http_addresses nsqd_tcp_addresses topic timeout
            identify s).2 ≠ Raise AssertionError →
  wf_state (__init__ W lookupd_http_addresses nsqd_tcp_addresses topic
                     timeout identify s).1.
Proof.
  unfold __init__. destruct (_ && _)%bool; [done|]. intros _.
  unfold bind, set_self. cbn [fst snd]. apply wf_check_connections.
  intros k c Hk. cbn [self _connections] in Hk. by rewrite lookup_empty in Hk.
Qed.

(** Under the store invariant every entry of the table meets the side
    conditions asked of a connection below. *)
Lemma wf_state_no_alias (s : State) (k : string * Z) (c : Conn) :
  wf_state s → _connections (self s) !! k = Some c →
  (oid c < List.length (heap s))%nat ∧ no_alias s k c = true.
Proof.
  intros Hs Hk. destruct (Hs k c Hk) as [Hlt Hu]. split; [done|].
  unfold no_alias. apply forallb_forall. intros [k' c'] Hin.
  apply list_elem_of_In, elem_of_map_to_list in Hin. cbn [fst snd].
  destruct (Nat.eqb_spec (oid c') (oid c)) as [Ho|]; [|done].
  cbn [implb]. apply bool_decide_eq_true. by eapply Hu.
Qed.

(** ** Concrete runs *)

(** C1, as stated, fails: the dead connection to [a:4150] is in the table,
    the lookupd returns [a:4150], and [check_connections] calls
    [connect()] on it, after which it is alive. *)
Lemma check_connections_reconnects_discovered :
  _connections (self s_dead_discovered) !! ("a", 4150) = Some c_a ∧
  alive (heap s_dead_discovered) c_a = false ∧
  check_connections W_up s_dead_discovered =
    (mkState (self s_dead_discovered)
       [mkConnState [] false true []]
       [EvLookup "lookupd:4161" (Some "t") (Producers [("a", 4150)]);
        EvLog INFO "Reconnecting to %s:%s" [ArgStr "a"; ArgInt 4150];
        EvConnect c_a],
     Ok tt).
Proof. split_and!; vm_compute; reflexivity. Qed.

(** An instance of C1 as amended: the dead connection to the static
    address [b:4150], which the lookupd does not return. *)
Lemma check_connections_dead_connection_witness :
  ∃ s' r evs,
    check_connections W_up s_dead_static = (s', r) ∧
    trace s' = trace s_dead_static ++ evs ∧
    _connections (self s') !! ("b", 4150) = Some c_b ∧
    (("b", 4150) ∉ merged (lookups evs) →
     heap s' !! oid c_b = heap s_dead_static !! oid c_b ∧
     existsb (touches (oid c_b)) evs = false) ∧
    (("b", 4150) ∈ merged (lookups evs) → EvConnect c_b ∈ evs).
Proof.
  apply (check_connections_dead_connection W_up s_dead_static ("b", 4150) c_b).
  - vm_compute; reflexivity.
  - simpl; lia.
  - vm_compute; reflexivity.
  - vm_compute; reflexivity.
Defined.

(** C4, as stated, fails: [topic] is set, to the empty string, and
    construction with a lookupd address fails all the same. *)
Lemma init_rejects_empty_topic :
  is_Some (Some EmptyString) ∧
  __init__ W_up (Some ["lookupd:4161"]) None (Some EmptyString)
           default_timeout [] no_store =
    (no_store, Raise AssertionError).
Proof. split; [by eexists|reflexivity]. Qed.

(** An instance of C4 as amended: a lookupd address and no topic. *)
Lemma init_asserts_topic_for_lookupd_witness :
  __init__ W_up (Some ["lookupd:4161"]) None None default_timeout [] no_store
  = (no_store, Raise AssertionError).
Proof.
  apply (init_asserts_topic_for_lookupd W_up (Some ["lookupd:4161"]) None None
           default_timeout [] no_store).
  split; [discriminate|by left].
Defined.

(** An instance of C8: the only connection is dead. *)
Lemma read_without_live_connections_witness :
  read W_up s_dead_static = (s_dead_static, Ok []).
Proof.
  apply read_without_live_connections.
  assert (connections s_dead_static = [c_b]) as -> by (vm_compute; reflexivity).
  intros c H. apply list_elem_of_singleton in H as ->. reflexivity.
Defined.

(** An instance of C10: a second [connect] to [a:4150]. *)
Lemma connect_duplicate_returns_new_witness :
  ∃ s', connect W_up "a" 4150 s_live = (s', Ok (mkConn 1 "a" 4150)) ∧
        self s' = self s_live ∧
        _connections (self s') !! ("a", 4150) = Some c_a.
Proof.
  destruct (connect_duplicate_returns_new W_up "a" 4150 c_a s_live)
    as (s' & H1 & H2 & H3 & _).
  - vm_compute; reflexivity.
  - by exists s'.
Defined.

(** Instances of C6: a first [add], and an [add] on a taken key. *)
Lemma add_inserts_once_witness :
  (∃ s', add c_a no_store = (s', Ok (Some c_a)) ∧
         _connections (self s') !! ("a", 4150) = Some c_a) ∧
  add (mkConn 1 "a" 4150) s_live = (s_live, Ok None).
Proof.
  split.
  - destruct (proj1 (add_inserts_once c_a no_store))
      as (s' & H1 & _ & H2 & _); [reflexivity|]. by exists s'.
  - apply (proj2 (add_inserts_once (mkConn 1 "a" 4150) s_live) c_a).
    vm_compute; reflexivity.
Defined.


(** One [read()] step on the live connection: the heartbeat is answered
    and dropped, the failed [FIN] is passed on, the fatal error is passed
    on and closes the connection, and the order is the wire order. *)
Example read_one_step :
  read W_up s_live =
    (mkState (self s_live)
       [mkConnState [] false false [NOP]]
       [EvSelect [c_a] [] [c_a] default_timeout [c_a] [] [];
        EvRead c_a [Response HEARTBEAT; Error FinFailed "E_FIN_FAILED";
                    Error (OtherKind "E_BAD_TOPIC") "E_BAD_TOPIC";
                    Response "OK"] false;
        EvLog INFO "Sending heartbeat to %s" [ArgConn c_a];
        EvNop c_a;
        EvLog ERROR "Closing %s: %s"
              [ArgConn c_a; ArgKind (OtherKind "E_BAD_TOPIC")];
        EvClose c_a],
     Ok [Error FinFailed "E_FIN_FAILED";
         Error (OtherKind "E_BAD_TOPIC") "E_BAD_TOPIC"; Response "OK"]).
Proof. vm_compute. reflexivity. Qed.

(** Discovery with two lookupds, the first of which fails: the failure is
    logged, the second is still asked, and its producer gets a
    connection. *)
Example discover_with_one_lookupd_down :
  discover W_one_down (Some "t")
    (mkState (mkClient [] ∅ default_timeout ["down"; "lookupd:4161"]
                       (Some "t") []) [] []) =
    (mkState (mkClient [] {[ ("a", 4150) := c_a ]} default_timeout
                       ["down"; "lookupd:4161"] (Some "t") [])
       [mkConnState [] false true []]
       [EvLookup "down" (Some "t") ClientException;
        EvLog EXCEPTION "Failed to query %s" [ArgStr "down"];
        EvLookup "lookupd:4161" (Some "t") (Producers [("a", 4150)]);
        EvLog INFO "Discovered %s:%s" [ArgStr "a"; ArgInt 4150];
        EvNew c_a [];
        EvSetBlocking c_a 0],
     Ok [c_a]).
Proof. vm_compute. reflexivity. Qed.

(** The static addresses of [check_connections]: [host:port] is split at
    the colon and the port read as a decimal integer. *)
Example check_hostspec_parses :
  py_split ":" "localhost:12345" = ["localhost"; "12345"] ∧
  py_int "12345" = Some 12345 ∧
  py_int " -7 " = Some (-7) ∧
  py_int "4150x" = None ∧
  (check_hostspec W_up "localhost" no_store).2 = Raise ValueError ∧
  (check_hostspec W_up "a:b:c" no_store).2 = Raise ValueError ∧
  (check_hostspec W_up "localhost:http" no_store).2 = Raise ValueError.
Proof. split_and!; reflexivity. Qed.

(** * Further properties *)

(** ** The table is keyed by endpoint *)

Lemma keyed_self (s s' : State) : self s' = self s → keyed s → keyed s'.
Proof. intros E H k c. rewrite E. apply H. Qed.

Lemma keyed_emit (e : Event) : preserves keyed (emit e).
Proof. by intros s. Qed.

Lemma keyed_update_conn (f : ConnState → ConnState) (c : Conn) :
  preserves keyed (update_conn f c).
Proof. intros s Hs. rewrite update_conn_eq. by apply (keyed_self s). Qed.

Lemma keyed_add (c : Conn) : preserves keyed (add c).
Proof.
  intros s Hs. destruct (_connections (self s) !! key_of c) as [old|] eqn:E.
  - by rewrite (add_present c old s E).
  - rewrite (add_absent c s E). intros k c' Hk.
    cbn [fst with_connections self _connections] in Hk.
    destruct (decide (key_of c = k)) as [Heq|Hne].
    + rewrite Heq, lookup_insert_eq in Hk. by injection Hk as <-.
    + rewrite lookup_insert_ne in Hk by done. by apply Hs.
Qed.

Lemma keyed_remove (c : Conn) : preserves keyed (remove c).
Proof.
  intros s Hs. destruct (_connections (self s) !! key_of c) as [found|] eqn:E.
  - destruct (remove_present c found s E) as (s' & Hr & Ht & _).
    rewrite Hr. intros k c' Hk. cbn [fst] in Hk. rewrite Ht in Hk.
    apply lookup_delete_Some in Hk as [_ Hk]. by apply Hs.
  - rewrite (remove_absent c s E). by apply (keyed_self s).
Qed.

Lemma keyed_connect (W : World) (h : string) (p : Z) :
  preserves keyed (connect W h p).
Proof.
  intros s Hs. pose proof (connect_eq W h p s) as E. cbn zeta in E.
  rewrite E. clear E.
  destruct (_connections (self s) !! (h, p)) as [old|] eqn:Ho.
  - by apply (keyed_self s).
  - intros k c Hk. cbn [fst with_connections connected self _connections] in Hk.
    destruct (decide ((h, p) = k)) as [Heq|Hne].
    + rewrite Heq, lookup_insert_eq in Hk. by injection Hk as <-.
    + rewrite lookup_insert_ne in Hk by done. by apply Hs.
Qed.

Lemma keyed_query_lookupds (W : World) (topic : option string)
    (lookupds : list string) :
  ∀ producers, preserves keyed (query_lookupds W lookupds topic producers).
Proof.
  intros producers s Hs.
  destruct (query_lookupds_spec W topic lookupds producers s) as (evs & Hq & _).
  rewrite Hq. by apply (keyed_self s).
Qed.

Lemma keyed_discover_one (W : World) (new : list Conn) (hp : string * Z) :
  preserves keyed (discover_one W new hp).
Proof.
  destruct hp as [h p]. unfold discover_one.
  apply preserves_bind; [apply preserves_get|intros s].
  destruct (_connections (self s) !! (h, p)) as [conn|].
  - destruct (negb (alive (heap s) conn)).
    + apply preserves_bind; [apply keyed_emit|intros _].
      apply preserves_bind; [|intros _; apply preserves_ret].
      apply preserves_bind; [apply preserves_get|intros s0].
      apply preserves_bind; [apply keyed_emit|intros _].
      apply keyed_update_conn.
    + apply preserves_bind; [apply keyed_emit|intros _; apply preserves_ret].
  - apply preserves_bind; [apply keyed_emit|intros _].
    apply preserves_bind; [apply keyed_connect|intros c; apply preserves_ret].
Qed.

Lemma keyed_discover (W : World) (topic : option string) :
  preserves keyed (discover W topic).
Proof.
  apply preserves_bind; [apply preserves_get|intros s].
  apply preserves_bind; [apply keyed_query_lookupds|intros producers].
  apply preserves_fold_m. intros b x. apply keyed_discover_one.
Qed.

Lemma keyed_check_hostspec (W : World) (hostspec : string) :
  preserves keyed (check_hostspec W hostspec).
Proof.
  unfold check_hostspec.
  destruct (py_split ":" hostspec) as [|h [|port [|? ?]]];
    try apply preserves_raise.
  destruct (py_int port) as [p|]; [|apply preserves_raise].
  apply preserves_bind; [apply preserves_get|intros s].
  destruct (_connections (self s) !! (h, p)) as [conn|].
  - destruct (negb (alive (heap s) conn)); apply preserves_ret.
  - apply preserves_bind; [apply keyed_emit|intros _].
    apply preserves_bind; [apply keyed_connect|intros c; apply preserves_ret].
Qed.

Lemma keyed_check_connections (W : World) :
  preserves keyed (check_connections W).
Proof.
  apply preserves_bind; [apply preserves_get|intros s].
  apply preserves_bind.
  - destruct (truthy_list (_lookupd (self s))); [|apply preserves_ret].
    apply preserves_bind; [apply keyed_discover|intros _; apply preserves_ret].
  - intros _. apply preserves_for_each. apply keyed_check_hostspec.
Qed.

Lemma keyed_read (W : World) : preserves keyed (read W).
Proof.
  intros s Hs.
  destruct (read_spec W s) as (s' & rs & evs & Hr & (Hself & _) & _).
  rewrite Hr. by apply (keyed_self s).
Qed.

Lemma keyed_close : preserves keyed close.
Proof.
  apply preserves_bind; [apply preserves_get|intros s].
  apply preserves_for_each. intros c.
  apply preserves_bind; [apply keyed_remove|intros _; apply preserves_ret].
Qed.

(** X1: every entry of the connection table is filed under the
    [(host, port)] of the connection it holds.  Construction establishes
    this, whatever the store was, and [add], [remove], [connect],
    [discover], [check_connections], [read] and [close] keep it, however
    they end. *)
Theorem table_is_keyed_by_endpoint (W : World) :
  (∀ lookupd_http_addresses nsqd_tcp_addresses topic timeout identify s,
     (__init__ W lookupd_http_addresses nsqd_tcp_addresses topic timeout
               identify s).2 ≠ Raise AssertionError →
     keyed (__init__ W lookupd_http_addresses nsqd_tcp_addresses topic
                     timeout identify s).1) ∧
  (∀ c, preserves keyed (add c)) ∧
  (∀ c, preserves keyed (remove c)) ∧
  (∀ h p, preserves keyed (connect W h p)) ∧
  (∀ topic, preserves keyed (discover W topic)) ∧
  preserves keyed (check_connections W) ∧
  preserves keyed (read W) ∧
  preserves keyed close.
Proof.
  split_and!.
  - intros lk nsqd topic timeout identify s. unfold __init__.
    destruct (_ && _)%bool; [done|]. intros _.
    unfold bind, set_self. cbn [fst snd]. apply keyed_check_connections.
    intros k c Hk. cbn [self _connections] in Hk.
    by rewrite lookup_empty in Hk.
  - apply keyed_add.
  - apply keyed_remove.
  - apply keyed_connect.
  - apply keyed_discover.
  - apply keyed_check_connections.
  - apply keyed_read.
  - apply keyed_close.
Qed.

(** ** [connect], [remove] and [connections] *)

Lemma elem_of_connections (s : State) (c : Conn) :
  c ∈ connections s ↔ ∃ k, _connections (self s) !! k = Some c.
Proof.
  unfold connections. rewrite list_elem_of_fmap. split.
  - intros ([k c'] & -> & H). exists k. by apply elem_of_map_to_list.
  - intros (k & H). exists (k, c). split; [done|].
    by apply elem_of_map_to_list.
Qed.

(** X6: [connect(host, port)] to an endpoint that has no entry constructs
    one connection, sets it non-blocking, files it under [(host, port)]
    and returns it; the other entries and the other objects of the store
    are as before, and the connection is alive exactly when its handshake
    succeeded. *)
Theorem connect_absent_inserts (W : World) (h : string) (p : Z) (s : State) :
  _connections (self s) !! (h, p) = None →
  ∃ s' c,
    connect W h p s = (s', Ok c) ∧
    key_of c = (h, p) ∧
    _connections (self s') = <[(h, p) := c]> (_connections (self s)) ∧
    heap s' = heap s ++ [mkConnState (_identify_options (self s)) false
                           (w_handshake W (trace s) c) []] ∧
    heap s' !! oid c = Some (mkConnState (_identify_options (self s)) false
                               (w_handshake W (trace s) c) []) ∧
    trace s' = trace s ++ [EvNew c (_identify_options (self s));
                           EvSetBlocking c 0].
Proof.
  intros Hn. pose proof (connect_eq W h p s) as E. cbn zeta in E.
  rewrite Hn in E. rewrite E. eexists _, _. split; [reflexivity|].
  cbn [self heap trace with_connections connected _connections oid].
  split_and!; try done. apply lookup_app_last.
Qed.

(** X7: [remove] works by endpoint.  When the table holds [found] under
    the [(host, port)] of its argument, [remove] returns [found], deletes
    that entry and no other, and calls [close()] on [found] and on nothing
    else: [found] is dead afterwards, and every other object is as alive
    as it was. *)
Theorem remove_closes_the_entry (connection found : Conn) (s : State) :
  _connections (self s) !! key_of connection = Some found →
  ∃ s',
    remove connection s = (s', Ok (Some found)) ∧
    _connections (self s') !! key_of connection = None ∧
    (∀ k, k ≠ key_of connection →
          _connections (self s') !! k = _connections (self s) !! k) ∧
    trace s' = trace s ++ [EvClose found] ∧
    alive (heap s') found = false ∧
    (∀ c, oid c ≠ oid found → alive (heap s') c = alive (heap s) c).
Proof.
  intros H. destruct (remove_present connection found s H)
    as (s' & Hr & Ht & Htr & Hd).
  exists s'. split_and!; try done.
  - rewrite Ht. apply lookup_delete_eq.
  - intros k Hk. rewrite Ht. by apply lookup_delete_ne.
  - intros c Hc. revert Hr. unfold remove, close_connection, bind, get.
    cbn [fst snd]. rewrite H. unfold set_connections. cbn [fst snd].
    rewrite conn_close_eq. unfold ret. intros [= <-]. cbn [heap].
    rewrite alive_upd_close, bool_decide_false by done.
    cbn [with_connections heap]. by rewrite andb_true_r.
Qed.

(** X14: what [connections()] returns follows [add] and [remove].  After
    an [add] on a free endpoint it holds the new connection and the ones
    it held; after a [remove], on a table keyed by endpoint, it holds
    exactly the ones it held whose endpoint is not that of the argument. *)
Theorem connections_follow_add_and_remove (c : Conn) (s : State) :
  (_connections (self s) !! key_of c = None →
   ∀ c', c' ∈ connections (add c s).1 ↔ c' = c ∨ c' ∈ connections s) ∧
  (keyed s →
   ∀ c', c' ∈ connections (remove c s).1 ↔
         c' ∈ connections s ∧ key_of c' ≠ key_of c).
Proof.
  split.
  - intros Hn c'. rewrite (add_absent c s Hn). rewrite !elem_of_connections.
    cbn [fst with_connections self _connections]. split.
    + intros (k & Hk). destruct (decide (key_of c = k)) as [Heq|Hne].
      * rewrite Heq, lookup_insert_eq in Hk. left. by injection Hk.
      * rewrite lookup_insert_ne in Hk by done. right. by exists k.
    + intros [->|(k & Hk)].
      * exists (key_of c). by rewrite lookup_insert_eq.
      * exists k. rewrite lookup_insert_ne; [done|]. intros <-. congruence.
  - intros Hkeyed c'.
    assert (Ht : _connections (self (remove c s).1) =
                 delete (key_of c) (_connections (self s))).
    { destruct (_connections (self s) !! key_of c) as [found|] eqn:E.
      - destruct (remove_present c found s E) as (s' & Hr & Ht & _).
        by rewrite Hr.
      - rewrite (remove_absent c s E). cbn [fst self].
        by rewrite delete_id. }
    rewrite !elem_of_connections, Ht. split.
    + intros (k & [Hne Hk]%lookup_delete_Some). split; [by exists k|].
      by rewrite (Hkeyed k c' Hk).
    + intros [(k & Hk) Hne]. exists k. apply lookup_delete_Some.
      split; [|done]. by rewrite <- (Hkeyed k c' Hk).
Qed.

(** ** What discovery and [check_connections] construct *)

Lemma news_app (a b : list Event) : news (a ++ b) = news a ++ news b.
Proof. apply flat_map_app. Qed.

Lemma grows_refl (s : State) : grows s s [].
Proof.
  split_and!; try done.
  - by rewrite app_nil_r.
  - intros c. apply not_elem_of_nil.
  - constructor.
  - by intros c ?%elem_of_nil.
  - intros k c Hk. by left.
Qed.

Lemma grows_trans (s1 s2 s3 : State) (e1 e2 : list Event) :
  grows s1 s2 e1 → grows s2 s3 e2 → grows s1 s3 (e1 ++ e2).
Proof.
  intros (Ht1 & Hm1 & Hc1 & Hd1 & Hn1 & Ho1) (Ht2 & Hm2 & Hc2 & Hd2 & Hn2 & Ho2).
  split_and!.
  - by rewrite Ht2, Ht1, app_assoc.
  - intros k c Hk. by apply Hm2, Hm1.
  - intros c [H|H]%elem_of_app; [by eapply Hc1|by eapply Hc2].
  - rewrite news_app, fmap_app. apply list.NoDup_app. split_and!; try done.
    intros k (c & -> & Hc)%list_elem_of_fmap (c' & Hk & Hc')%list_elem_of_fmap.
    destruct (Hn1 c Hc) as [_ Hin]. destruct (Hn2 c' Hc') as [Hout _].
    congruence.
  - intros c. rewrite news_app, elem_of_app. intros [Hc|Hc].
    + destruct (Hn1 c Hc) as [Hout Hin]. split; [done|by apply Hm2].
    + destruct (Hn2 c Hc) as [Hout Hin]. split; [|done].
      destruct (_connections (self s1) !! key_of c) as [x|] eqn:E; [|done].
      apply Hm1 in E. congruence.
  - intros k c Hk. rewrite news_app, elem_of_app.
    destruct (Ho2 k c Hk) as [H2|[H2 Hkey]]; [|by right; split; [right|]].
    destruct (Ho1 k c H2) as [H1|[H1 Hkey]]; [by left|].
    right. split; [by left|done].
Qed.

(** A step that changes neither the client nor which calls were made on
    connections, like logging. *)
Lemma grows_quiet (s s' : State) (evs : list Event) :
  self s' = self s → trace s' = trace s ++ evs →
  news evs = [] → (∀ c, EvClose c ∉ evs) → grows s s' evs.
Proof.
  intros Hs Ht Hn Hc. split_and!; try done.
  - intros k c. by rewrite Hs.
  - rewrite Hn. constructor.
  - rewrite Hn. by intros c ?%elem_of_nil.
  - intros k c. rewrite Hs. by left.
Qed.

Lemma untouched_quiet (evs : list Event) :
  (∀ o, existsb (touches o) evs = false) →
  news evs = [] ∧ ∀ c, EvClose c ∉ evs.
Proof.
  intros H. induction evs as [|e evs IH]; [split; [done|]|].
  { intros c. apply not_elem_of_nil. }
  destruct IH as [IHn IHc].
  { intros o. specialize (H o). simpl in H.
    by apply orb_false_elim in H as [_ ?]. }
  split.
  - destruct e; simpl; try done. specialize (H (oid c)). simpl in H.
    by rewrite bool_decide_true in H.
  - intros c [<-|Hin]%elem_of_cons; [|by eapply IHc].
    specialize (H (oid c)). simpl in H. by rewrite bool_decide_true in H.
Qed.

Lemma union_singleton_in (D : gset (string * Z)) (k : string * Z) :
  k ∈ D → D = D ∪ {[k]}.
Proof.
  intros H. apply set_eq. intros x. rewrite elem_of_union, elem_of_singleton.
  split; [auto|]. by intros [?| ->].
Qed.

(** [connect] on a free endpoint, seen as a growth of the table. *)
Lemma connect_fresh_grows (W : World) (h : string) (p : Z) (s : State) :
  _connections (self s) !! (h, p) = None →
  ∃ s' c evs,
    connect W h p s = (s', Ok c) ∧
    grows s s' evs ∧
    lookups evs = [] ∧
    news evs = [c] ∧ key_of c = (h, p) ∧
    dom (_connections (self s')) = dom (_connections (self s)) ∪ {[(h, p)]}.
Proof.
  intros Hn. pose proof (connect_eq W h p s) as E. cbn zeta in E.
  rewrite Hn in E. rewrite E. clear E.
  set (c := mkConn (List.length (heap s)) h p).
  eexists _, c, [EvNew c (_identify_options (self s)); EvSetBlocking c 0].
  split; [reflexivity|].
  cbn [self heap trace with_connections connected _connections].
  split_and!; try done.
  - split_and!; cbn [self heap trace with_connections connected _connections].
    + done.
    + intros k c' Hk. rewrite lookup_insert_ne; [done|]. intros <-. congruence.
    + intros c' H. elem_cases H.
    + simpl. apply list.NoDup_singleton.
    + intros c' H. simpl in H. apply list_elem_of_singleton in H as ->.
      split; [done|]. apply lookup_insert_eq.
    + intros k c' Hk. destruct (decide ((h, p) = k)) as [Heq|Hne].
      * rewrite Heq, lookup_insert_eq in Hk. injection Hk as <-.
        right. split; [left|by rewrite <- Heq].
      * rewrite lookup_insert_ne in Hk by done. by left.
  - rewrite dom_insert_L. apply (comm_L (∪)).
Qed.

Lemma discover_one_grows (W : World) (new : list Conn) (hp : string * Z)
    (s : State) :
  ∃ s' new' evs,
    discover_one W new hp s = (s', Ok new') ∧
    grows s s' evs ∧
    lookups evs = [] ∧
    new' = new ++ news evs ∧
    (∀ c, c ∈ news evs → key_of c = hp) ∧
    dom (_connections (self s')) = dom (_connections (self s)) ∪ {[hp]}.
Proof.
  destruct hp as [h p]. unfold discover_one, bind at 1, get. cbn [fst snd].
  destruct (_connections (self s) !! (h, p)) as [conn|] eqn:E.
  - assert (Hdom : dom (_connections (self s)) =
                   dom (_connections (self s)) ∪ {[(h, p)]}).
    { apply union_singleton_in, elem_of_dom. by eexists. }
    destruct (alive (heap s) conn) eqn:Ha; cbn [negb].
    + unfold bind, ret. rewrite log_eq.
      eexists _, new,
        [EvLog DEBUG "Connection to %s:%s still alive" [ArgStr h; ArgInt p]].
      split; [reflexivity|]. split_and!.
      * apply grows_quiet; try done. intros c H. elem_cases H.
      * done.
      * simpl. by rewrite app_nil_r.
      * by intros c ?%elem_of_nil.
      * exact Hdom.
    + unfold bind, ret. rewrite log_eq, conn_connect_eq. cbn [self heap trace].
      eexists _, new,
        [EvLog INFO "Reconnecting to %s:%s" [ArgStr h; ArgInt p];
         EvConnect conn].
      split; [reflexivity|]. split_and!.
      * apply grows_quiet; try done.
        -- cbn [trace]. by rewrite <- app_assoc.
        -- intros c H. elem_cases H.
      * done.
      * simpl. by rewrite app_nil_r.
      * by intros c ?%elem_of_nil.
      * exact Hdom.
  - unfold bind at 1. rewrite log_eq.
    set (s0 := mkState _ _ _).
    destruct (connect_fresh_grows W h p s0 E)
      as (s' & c & evs & Hc & Hg & Hlk & Hnews & Hkey & Hdom).
    unfold bind, ret. rewrite Hc.
    exists s', (new ++ [c]),
      (EvLog INFO "Discovered %s:%s" [ArgStr h; ArgInt p] :: evs).
    split; [reflexivity|]. split_and!; try done.
    + change (?e :: evs) with ([e] ++ evs).
      apply (grows_trans s s0 s'); [|done].
      apply grows_quiet; try done. intros c' H. elem_cases H.
    + simpl. by rewrite Hnews.
    + simpl. rewrite Hnews. by intros c' ->%list_elem_of_singleton.
Qed.

Lemma discover_loop_grows (W : World) (producers : list (string * Z)) :
  ∀ (new : list Conn) (s : State),
  ∃ s' new' evs,
    fold_m (discover_one W) producers new s = (s', Ok new') ∧
    grows s s' evs ∧
    lookups evs = [] ∧
    new' = new ++ news evs ∧
    (∀ c, c ∈ news evs → key_of c ∈ producers) ∧
    dom (_connections (self s')) =
      dom (_connections (self s)) ∪ list_to_set producers.
Proof.
  induction producers as [|hp rest IH]; intros new s.
  - exists s, new, []. split; [done|]. rewrite app_nil_r.
    split_and!; try done; [apply grows_refl|by intros c ?%elem_of_nil|].
    simpl. by rewrite union_empty_r_L.
  - destruct (discover_one_grows W new hp s)
      as (s1 & new1 & e1 & H1 & Hg1 & Hl1 & Hn1 & Hk1 & Hd1).
    destruct (IH new1 s1)
      as (s' & new' & e2 & H2 & Hg2 & Hl2 & Hn2 & Hk2 & Hd2).
    exists s', new', (e1 ++ e2). cbn [fold_m]. unfold bind. rewrite H1, H2.
    split; [done|]. split_and!.
    + by eapply grows_trans.
    + by rewrite lookups_app, Hl1, Hl2.
    + by rewrite Hn2, Hn1, news_app, app_assoc.
    + intros c. rewrite news_app, elem_of_app. intros [Hc|Hc].
      * rewrite (Hk1 c Hc). left.
      * right. by apply Hk2.
    + rewrite Hd2, Hd1. simpl. by rewrite (assoc_L (∪)).
Qed.

Lemma discover_grows (W : World) (topic : option string) (s : State) :
  ∃ s' new evs,
    discover W topic s = (s', Ok new) ∧
    grows s s' evs ∧
    new = news evs ∧
    (∀ c, c ∈ news evs → key_of c ∈ merged (lookups evs)) ∧
    dom (_connections (self s')) =
      dom (_connections (self s)) ∪ list_to_set (merged (lookups evs)).
Proof.
  unfold discover, bind at 1, get. cbn [fst snd].
  destruct (query_lookupds_spec W topic (_lookupd (self s)) [] s)
    as (e1 & Hq & _ & _ & Ht).
  destruct (untouched_quiet e1 Ht) as [Hn1 Hc1].
  unfold bind at 1. rewrite Hq. simpl app.
  set (s1 := mkState (self s) (heap s) (trace s ++ e1)).
  destruct (discover_loop_grows W (merged (lookups e1)) [] s1)
    as (s' & new & e2 & Hd & Hg & Hl2 & Hnew & Hk & Hdom).
  rewrite Hd. exists s', new, (e1 ++ e2).
  rewrite lookups_app, Hl2, app_nil_r, news_app, Hn1.
  split_and!; try done.
  apply (grows_trans s s1 s'); [|done]. by apply grows_quiet.
Qed.

Lemma length_py_split (s : string) :
  List.length (py_split ":" s) = S (colons s).
Proof.
  induction s as [|c s IH]; [done|]. cbn [py_split colons].
  destruct (Ascii.eqb c ":"); cbn [List.length]; [by rewrite IH|].
  destruct (py_split ":" s); [done|]. exact IH.
Qed.

Lemma static_endpoint_colons (hostspec : string) :
  colons hostspec ≠ 1%nat → static_endpoint hostspec = None.
Proof.
  intros H. unfold static_endpoint.
  pose proof (length_py_split hostspec) as L.
  destruct (py_split ":" hostspec) as [|h [|port [|? ?]]]; try done.
  simpl in L. congruence.
Qed.

Lemma check_hostspec_grows (W : World) (hostspec : string) (s : State) :
  ∃ s' r evs,
    check_hostspec W hostspec s = (s', r) ∧
    grows s s' evs ∧
    lookups evs = [] ∧
    match static_endpoint hostspec with
    | Some k =>
        r = Ok tt ∧
        (∀ c, c ∈ news evs → key_of c = k) ∧
        dom (_connections (self s')) = dom (_connections (self s)) ∪ {[k]}
    | None => r = Raise ValueError ∧ s' = s ∧ evs = []
    end.
Proof.
  unfold check_hostspec, static_endpoint.
  destruct (py_split ":" hostspec) as [|h [|port [|? ?]]];
    try (exists s, (Raise ValueError), []; split_and!; try done;
         apply grows_refl).
  destruct (py_int port) as [p|]; cbn [fmap option_fmap option_map];
    [|exists s, (Raise ValueError), []; split_and!; try done;
      apply grows_refl].
  unfold bind at 1, get. cbn [fst snd].
  destruct (_connections (self s) !! (h, p)) as [conn|] eqn:E.
  - exists s, (Ok tt), []. split; [by destruct (negb (alive (heap s) conn))|].
    split_and!; try done; [apply grows_refl|by intros c ?%elem_of_nil|].
    apply union_singleton_in, elem_of_dom. by eexists.
  - unfold bind at 1. rewrite log_eq.
    set (s0 := mkState _ _ _).
    destruct (connect_fresh_grows W h p s0 E)
      as (s' & c & evs & Hc & Hg & Hlk & Hnews & Hkey & Hdom).
    unfold bind, ret. rewrite Hc.
    exists s', (Ok tt),
      (EvLog INFO "Connecting to %s:%s" [ArgStr h; ArgInt p] :: evs).
    split; [reflexivity|]. split_and!; try done.
    + change (?e :: evs) with ([e] ++ evs).
      apply (grows_trans s s0 s'); [|done].
      apply grows_quiet; try done. intros c' H. elem_cases H.
    + simpl. rewrite Hnews. by intros c' ->%list_elem_of_singleton.
Qed.

Lemma static_loop_grows (W : World) (addrs : list string) :
  ∀ s, ∃ s' r evs,
    for_each addrs (check_hostspec W) s = (s', r) ∧
    grows s s' evs ∧
    lookups evs = [] ∧
    (r = Ok tt ∨ r = Raise ValueError) ∧
    (r = Raise ValueError ↔ ∃ a, a ∈ addrs ∧ static_endpoint a = None) ∧
    (∀ c, c ∈ news evs → Some (key_of c) ∈ static_endpoint <$> addrs) ∧
    (r = Ok tt →
     dom (_connections (self s')) =
       dom (_connections (self s)) ∪ list_to_set (omap static_endpoint addrs)).
Proof.
  induction addrs as [|a rest IH]; intros s.
  - exists s, (Ok tt), []. split; [done|].
    split_and!; [apply grows_refl|done|by left| | |].
    + split; [done|]. by intros (a & ?%elem_of_nil & _).
    + by intros c ?%elem_of_nil.
    + intros _. simpl. by rewrite union_empty_r_L.
  - destruct (check_hostspec_grows W a s)
      as (s1 & r1 & e1 & H1 & Hg1 & Hl1 & Hend).
    cbn [for_each]. unfold bind. rewrite H1.
    destruct (static_endpoint a) as [k|] eqn:Ea.
    + destruct Hend as (-> & Hk1 & Hd1).
      destruct (IH s1) as (s' & r & e2 & H2 & Hg2 & Hl2 & Hr & Hbad & Hk2 & Hd2).
      exists s', r, (e1 ++ e2). rewrite H2. split; [done|]. split_and!.
      * by eapply grows_trans.
      * by rewrite lookups_app, Hl1, Hl2.
      * done.
      * rewrite Hbad. split.
        -- intros (a' & Hin & Hnone). exists a'. split; [by right|done].
        -- intros (a' & [->|Hin]%elem_of_cons & Hnone); [congruence|].
           by exists a'.
      * intros c. rewrite news_app, elem_of_app, fmap_cons.
        intros [Hc|Hc].
        -- rewrite (Hk1 c Hc), Ea. left.
        -- right. by apply Hk2.
      * intros Hok. rewrite (Hd2 Hok), Hd1. cbn [omap list_omap].
        rewrite Ea. simpl. by rewrite (assoc_L (∪)).
    + destruct Hend as (-> & -> & ->).
      exists s, (Raise ValueError), []. split; [done|].
      split_and!; [apply grows_refl|done|by right| | |done].
      * split; [|done]. intros _. exists a. split; [left|done].
      * by intros c ?%elem_of_nil.
Qed.

Lemma check_connections_grows (W : World) (s : State) :
  ∃ s' r evs,
    check_connections W s = (s', r) ∧
    grows s s' evs ∧
    (r = Ok tt ∨ r = Raise ValueError) ∧
    (r = Raise ValueError ↔
     ∃ a, a ∈ _nsqd_tcp_addresses (self s) ∧ static_endpoint a = None) ∧
    (∀ c, c ∈ news evs →
          key_of c ∈ merged (lookups evs) ∨
          Some (key_of c) ∈ static_endpoint <$> _nsqd_tcp_addresses (self s)) ∧
    (r = Ok tt →
     dom (_connections (self s')) =
       dom (_connections (self s))
       ∪ list_to_set (merged (lookups evs))
       ∪ list_to_set (omap static_endpoint (_nsqd_tcp_addresses (self s)))).
Proof.
  unfold check_connections, bind at 1, get. cbn [fst snd].
  destruct (truthy_list (_lookupd (self s))).
  - destruct (discover_grows W (_topic (self s)) s)
      as (s1 & new & e1 & Hd & Hg1 & _ & Hk1 & Hd1).
    destruct (static_loop_grows W (_nsqd_tcp_addresses (self s)) s1)
      as (s' & r & e2 & Hl & Hg2 & Hlk2 & Hr & Hbad & Hk2 & Hd2).
    unfold bind at 1. unfold bind at 1. rewrite Hd. unfold ret at 1.
    rewrite Hl. exists s', r, (e1 ++ e2).
    rewrite lookups_app, Hlk2, app_nil_r.
    split; [done|]. split_and!; try done.
    + by eapply grows_trans.
    + intros c. rewrite news_app, elem_of_app. intros [Hc|Hc]; [left|right].
      * by apply Hk1.
      * by apply Hk2.
    + intros Hok. by rewrite (Hd2 Hok), Hd1.
  - destruct (static_loop_grows W (_nsqd_tcp_addresses (self s)) s)
      as (s' & r & e2 & Hl & Hg2 & Hlk2 & Hr & Hbad & Hk2 & Hd2).
    unfold bind at 1, ret at 1. rewrite Hl. exists s', r, e2.
    rewrite Hlk2. split; [done|]. split_and!; try done.
    + intros c Hc. right. by apply Hk2.
    + intros Hok. rewrite (Hd2 Hok). simpl. by rewrite union_empty_r_L.
Qed.

(** X2: when [check_connections] returns normally, the endpoints of the
    table are those it had, those the lookupds returned during the call,
    and those of the static addresses, and no other.  So after a
    construction that succeeds the table holds exactly the discovered and
    the static endpoints. *)
Theorem check_connections_covers_endpoints (W : World) :
  (∀ s, (check_connections W s).2 = Ok tt →
     ∃ evs,
       trace (check_connections W s).1 = trace s ++ evs ∧
       dom (_connections (self (check_connections W s).1)) =
         dom (_connections (self s))
         ∪ list_to_set (merged (lookups evs))
         ∪ list_to_set (omap static_endpoint (_nsqd_tcp_addresses (self s)))) ∧
  (∀ lookupd_http_addresses nsqd_tcp_addresses topic timeout identify s,
     let built :=
       __init__ W lookupd_http_addresses nsqd_tcp_addresses topic timeout
                identify s in
     built.2 = Ok tt →
     ∃ evs,
       trace built.1 = trace s ++ evs ∧
       dom (_connections (self built.1)) =
         list_to_set (merged (lookups evs))
         ∪ list_to_set (omap static_endpoint (default [] nsqd_tcp_addresses))).
Proof.
  split.
  - intros s Hok.
    destruct (check_connections_grows W s)
      as (s' & r & evs & Hc & (Ht & _) & _ & _ & _ & Hd).
    rewrite Hc in *. cbn [fst snd] in *. exists evs. split; [done|].
    by apply Hd.
  - intros lk nsqd topic timeout identify s built. subst built.
    unfold __init__. destruct (_ && _)%bool; [done|].
    unfold bind, set_self. cbn [fst snd].
    match goal with |- (check_connections W ?s0).2 = _ → _ =>
      destruct (check_connections_grows W s0)
        as (s' & r & evs & Hc & (Ht & _) & _ & _ & _ & Hd)
    end.
    rewrite Hc. cbn [fst snd self trace _connections _nsqd_tcp_addresses] in *.
    intros Hok. exists evs. split; [done|].
    rewrite (Hd Hok), dom_empty_L. by rewrite union_empty_l_L.
Qed.

(** X3: [check_connections] only adds.  However it ends, every entry the
    table had is still there, unreplaced; [close()] is called on nothing;
    and a connection is constructed only for an endpoint that had no
    entry, one per endpoint, each of them returned by a lookupd or given
    as a static address, and each in the table afterwards; the table has
    no other new entry. *)
Theorem check_connections_only_adds (W : World) (s : State) :
  ∃ s' r evs,
    check_connections W s = (s', r) ∧
    trace s' = trace s ++ evs ∧
    (∀ k c, _connections (self s) !! k = Some c →
            _connections (self s') !! k = Some c) ∧
    (∀ c, EvClose c ∉ evs) ∧
    NoDup (key_of <$> news evs) ∧
    (∀ c, c ∈ news evs →
          _connections (self s) !! key_of c = None ∧
          _connections (self s') !! key_of c = Some c ∧
          (key_of c ∈ merged (lookups evs) ∨
           Some (key_of c) ∈
             static_endpoint <$> _nsqd_tcp_addresses (self s))) ∧
    (∀ k c, _connections (self s') !! k = Some c →
            _connections (self s) !! k = Some c ∨
            (c ∈ news evs ∧ key_of c = k)).
Proof.
  destruct (check_connections_grows W s)
    as (s' & r & evs & Hc & (Ht & Hm & Hcl & Hnd & Hn & Ho) & _ & _ & Hk & _).
  exists s', r, evs. split_and!; try done.
  intros c Hin. destruct (Hn c Hin) as [H1 H2]. split_and!; try done.
  by apply Hk.
Qed.

(** X4: a static address is well formed when it has exactly one colon and
    what follows the colon reads as an integer.  A construction that passes
    the assertion on [topic] raises [ValueError] exactly when one of the
    static addresses is not well formed; otherwise it returns normally. *)
Theorem init_raises_on_malformed_address (W : World)
    (lookupd_http_addresses nsqd_tcp_addresses : option (list string))
    (topic : option string) (timeout : Q) (identify : IdentifyOptions)
    (s : State) :
  let built :=
    __init__ W lookupd_http_addresses nsqd_tcp_addresses topic timeout
             identify s in
  built.2 ≠ Raise AssertionError →
  (∀ a, colons a ≠ 1%nat → static_endpoint a = None) ∧
  (built.2 = Raise ValueError ↔
   ∃ a, a ∈ default [] nsqd_tcp_addresses ∧ static_endpoint a = None) ∧
  (built.2 = Ok tt ↔
   ∀ a, a ∈ default [] nsqd_tcp_addresses → is_Some (static_endpoint a)).
Proof.
  intros built. subst built. unfold __init__.
  destruct (_ && _)%bool; [done|]. intros _.
  unfold bind, set_self. cbn [fst snd].
  match goal with |- _ ∧ ((check_connections W ?s0).2 = _ ↔ _) ∧ _ =>
    destruct (check_connections_grows W s0)
      as (s' & r & evs & Hc & _ & Hr & Hbad & _)
  end.
  rewrite Hc. cbn [fst snd self _nsqd_tcp_addresses] in *.
  split_and!; [apply static_endpoint_colons|done|].
  split.
  - intros -> a Ha. destruct (static_endpoint a) eqn:E; [by eexists|].
    assert (Ok tt = Raise ValueError) by (apply Hbad; by exists a). done.
  - intros Hall. destruct Hr as [->| ->]; [done|].
    destruct (proj1 Hbad eq_refl) as (a & Ha & Hnone).
    destruct (Hall a Ha) as [k Hk]. congruence.
Qed.

(** An instance of X4: the second static address has no port. *)
Lemma init_raises_on_malformed_address_witness :
  (__init__ W_up None (Some ["a:4150"; "localhost"]) None default_timeout []
            no_store).2 = Raise ValueError.
Proof.
  apply (init_raises_on_malformed_address W_up None
           (Some ["a:4150"; "localhost"]) None default_timeout [] no_store).
  - vm_compute. discriminate.
  - exists "localhost". split; [right; left|reflexivity].
Defined.

(** X5: [discover] returns the connections it has constructed, in the
    order it constructed them: one for each endpoint that a lookupd
    returned and that had no entry, none for an endpoint that had one.
    Each is in the table afterwards, under its endpoint. *)
Theorem discover_returns_new_connections (W : World)
    (topic : option string) (s : State) :
  ∃ s' new evs,
    discover W topic s = (s', Ok new) ∧
    trace s' = trace s ++ evs ∧
    new = news evs ∧
    NoDup (key_of <$> new) ∧
    (∀ c, c ∈ new →
          key_of c ∈ merged (lookups evs) ∧
          _connections (self s) !! key_of c = None ∧
          _connections (self s') !! key_of c = Some c) ∧
    (∀ k, k ∈ merged (lookups evs) →
          _connections (self s) !! k = None →
          ∃ c, c ∈ new ∧ key_of c = k).
Proof.
  destruct (discover_grows W topic s)
    as (s' & new & evs & Hd & (Ht & Hm & Hcl & Hnd & Hn & Ho) & -> & Hk & Hdom).
  exists s', (news evs), evs. split_and!; try done.
  - intros c Hin. destruct (Hn c Hin) as [H1 H2]. split_and!; try done.
    by apply Hk.
  - intros k Hin Hnone.
    assert (Hkd : k ∈ dom (_connections (self s'))).
    { rewrite Hdom, elem_of_union, elem_of_list_to_set. by right. }
    apply elem_of_dom in Hkd as [c Hc].
    destruct (Ho k c Hc) as [Hold|[Hnew Hkey]]; [congruence|].
    by exists c.
Qed.

(** An instance of X2: two static addresses and a lookupd that knows one
    of them. *)
Lemma check_connections_covers_endpoints_witness :
  ∃ evs,
    trace (check_connections W_up s_unconnected).1 =
      trace s_unconnected ++ evs ∧
    dom (_connections (self (check_connections W_up s_unconnected).1)) =
      dom (_connections (self s_unconnected))
      ∪ list_to_set (merged (lookups evs))
      ∪ list_to_set (omap static_endpoint
                          (_nsqd_tcp_addresses (self s_unconnected))).
Proof.
  apply (proj1 (check_connections_covers_endpoints W_up) s_unconnected).
  vm_compute. reflexivity.
Defined.

(** ** [close] *)

Lemma alive_after_refl (s : State) : alive_after s s [].
Proof. intros c. simpl. by rewrite andb_true_r. Qed.

Lemma alive_after_trans (s1 s2 s3 : State) (e1 e2 : list Event) :
  alive_after s1 s2 e1 → alive_after s2 s3 e2 → alive_after s1 s3 (e1 ++ e2).
Proof.
  intros H1 H2 c. rewrite H2, H1. unfold closes. rewrite existsb_app.
  by rewrite negb_orb, andb_assoc.
Qed.

Lemma remove_present_eq (c found : Conn) (s : State) :
  _connections (self s) !! key_of c = Some found →
  remove c s =
    (mkState (self (with_connections
                      (delete (key_of c) (_connections (self s))) s))
             (upd (with_alive false) found (heap s))
             (trace s ++ [EvClose found]),
     Ok (Some found)).
Proof.
  intros H. unfold remove, close_connection, bind, get. cbn [fst snd].
  rewrite H. unfold set_connections. by rewrite conn_close_eq.
Qed.

(** [for c in l: remove(c)] on connections that the table holds under
    their own, pairwise different, endpoints. *)
Lemma remove_all_spec (l : list Conn) :
  ∀ s,
  NoDup (key_of <$> l) →
  (∀ c, c ∈ l → _connections (self s) !! key_of c = Some c) →
  ∃ s',
    for_each l (λ c, remove c ;;; ret tt) s = (s', Ok tt) ∧
    (∀ k, _connections (self s') !! k =
          if decide (k ∈ key_of <$> l) then None
          else _connections (self s) !! k) ∧
    trace s' = trace s ++ (EvClose <$> l) ∧
    alive_after s s' (EvClose <$> l).
Proof.
  induction l as [|c l IH]; intros s Hnd Hin.
  - exists s. split; [done|]. split_and!.
    + intros k. rewrite decide_False; [done|]. apply not_elem_of_nil.
    + by rewrite app_nil_r.
    + apply alive_after_refl.
  - rewrite fmap_cons in Hnd. apply list.NoDup_cons in Hnd as [Hc Hnd].
    assert (Hcin : _connections (self s) !! key_of c = Some c)
      by (apply Hin; left).
    cbn [for_each]. unfold bind at 1. unfold bind at 1.
    rewrite (remove_present_eq c c s Hcin). unfold ret at 1.
    set (s1 := mkState _ _ _).
    destruct (IH s1 Hnd) as (s' & Hl & Ht & Htr & Hal).
    { intros c' Hc'. subst s1. cbn [self with_connections _connections].
      rewrite lookup_delete_ne; [apply Hin; by right|].
      intros Heq. apply Hc. rewrite Heq. by apply list_elem_of_fmap_2. }
    exists s'. split; [done|]. split_and!.
    + intros k. rewrite Ht. subst s1.
      cbn [self with_connections _connections]. rewrite fmap_cons.
      destruct (decide (k = key_of c)) as [->|Hne].
      * rewrite (decide_True (P := key_of c ∈ key_of c :: _)) by left.
        destruct (decide _); [done|apply lookup_delete_eq].
      * rewrite lookup_delete_ne by done.
        destruct (decide (k ∈ key_of <$> l)) as [Hk|Hk].
        -- rewrite decide_True; [done|by right].
        -- rewrite decide_False; [done|].
           by intros [?|?]%elem_of_cons.
    + rewrite Htr. subst s1. cbn [trace]. by rewrite <- app_assoc.
    + change (EvClose <$> c :: l) with ([EvClose c] ++ (EvClose <$> l)).
      apply (alive_after_trans s s1 s'); [|done].
      intros c'. subst s1. cbn [heap]. rewrite alive_upd_close.
      unfold closes. simpl. by rewrite orb_false_r.
Qed.

Lemma keyed_connections (s : State) :
  keyed s →
  key_of <$> connections s = (map_to_list (_connections (self s))).*1.
Proof.
  intros Hk. unfold connections.
  assert (H : ∀ kc, kc ∈ map_to_list (_connections (self s)) →
                    key_of kc.2 = kc.1).
  { intros [k c] Hin. apply elem_of_map_to_list in Hin. by apply Hk. }
  induction (map_to_list (_connections (self s))) as [|kc l IH]; [done|].
  rewrite !fmap_cons. f_equal; [apply H; left|].
  apply IH. intros kc' Hin. apply H. by right.
Qed.

Lemma close_spec (s : State) :
  keyed s →
  ∃ s',
    close s = (s', Ok tt) ∧
    _connections (self s') = ∅ ∧
    trace s' = trace s ++ (EvClose <$> connections s) ∧
    alive_after s s' (EvClose <$> connections s).
Proof.
  intros Hk. unfold close, bind at 1, get. cbn [fst snd].
  destruct (remove_all_spec (connections s) s) as (s' & Hc & Ht & Htr & Hal).
  { rewrite (keyed_connections s Hk). apply NoDup_fst_map_to_list. }
  { intros c (k & Hc)%elem_of_connections. by rewrite (Hk k c Hc). }
  exists s'. split_and!; try done.
  apply map_eq. intros k. rewrite Ht, lookup_empty.
  destruct (decide _) as [|Hn]; [done|].
  destruct (_connections (self s) !! k) as [c|] eqn:E; [|done].
  exfalso. apply Hn. rewrite <- (Hk k c E). apply list_elem_of_fmap_2.
  apply elem_of_connections. by exists k.
Qed.

(** X8: on a table keyed by endpoint, [close()] returns normally, leaves
    the table empty, and calls [close()] once on each connection the
    table held, and on nothing else; none of them is alive afterwards. *)
Theorem close_empties_the_table (s : State) :
  keyed s →
  ∃ s',
    close s = (s', Ok tt) ∧
    _connections (self s') = ∅ ∧
    connections s' = [] ∧
    trace s' = trace s ++ (EvClose <$> connections s) ∧
    (∀ c, c ∈ connections s → alive (heap s') c = false).
Proof.
  intros Hk. destruct (close_spec s Hk) as (s' & Hc & Ht & Htr & Hal).
  exists s'. split_and!; try done.
  - unfold connections. by rewrite Ht, map_to_list_empty.
  - intros c Hin. rewrite Hal.
    assert (closes (oid c) (EvClose <$> connections s) = true) as ->.
    { unfold closes. apply existsb_exists. exists (EvClose c).
      split; [by apply list_elem_of_In, list_elem_of_fmap_2|].
      simpl. by rewrite bool_decide_true. }
    by rewrite andb_false_r.
Qed.

(** X9: after [close()], [read()] returns the empty list at once: it does
    not call [select] and touches no connection. *)
Theorem read_after_close (W : World) (s : State) :
  keyed s →
  ∃ s', close s = (s', Ok tt) ∧ read W s' = (s', Ok []).
Proof.
  intros Hk. destruct (close_spec s Hk) as (s' & Hc & Ht & _).
  exists s'. split; [done|].
  unfold read, bind, get. cbn [fst snd]. unfold connections.
  by rewrite Ht, map_to_list_empty.
Qed.

Lemma keyed_s_live : keyed s_live.
Proof.
  intros k c H. cbn [s_live self _connections] in H.
  apply lookup_singleton_Some in H as [<- <-]. reflexivity.
Qed.

(** An instance of X8: closing the client with one live connection. *)
Lemma close_empties_the_table_witness :
  ∃ s', close s_live = (s', Ok tt) ∧ _connections (self s') = ∅ ∧
        alive (heap s') c_a = false.
Proof.
  destruct (close_empties_the_table s_live keyed_s_live)
    as (s' & H1 & H2 & _ & _ & H3).
  exists s'. split; [exact H1|]. split; [exact H2|]. apply H3.
  apply elem_of_connections. exists ("a", 4150). vm_compute. reflexivity.
Defined.

(** An instance of X9. *)
Lemma read_after_close_witness :
  ∃ s', close s_live = (s', Ok tt) ∧ read W_up s' = (s', Ok []).
Proof. exact (read_after_close W_up s_live keyed_s_live). Defined.

(** ** What [read] touches *)

Lemma lookup_frame_heap_ne (conn : Conn) (res : Frame) (h : list ConnState)
    (o : nat) :
  o ≠ oid conn → frame_heap conn res h !! o = h !! o.
Proof.
  intros Hne. unfold frame_heap. destruct (is_heartbeat res).
  - by apply lookup_upd_ne.
  - destruct res as [|k ?|]; try done.
    destruct (nonfatal k); [done|by apply lookup_upd_ne].
Qed.

Lemma lookup_frames_heap_ne (conn : Conn) (fs : list Frame) (o : nat) :
  o ≠ oid conn →
  ∀ h, fold_left (λ h res, frame_heap conn res h) fs h !! o = h !! o.
Proof.
  intros Hne. induction fs as [|res fs IH]; intros h; [done|].
  simpl. by rewrite IH, lookup_frame_heap_ne.
Qed.

Lemma touches_frame_events (conn : Conn) (fs : list Frame) (o : nat) :
  o ≠ oid conn → existsb (touches o) (flat_map (frame_events conn) fs) = false.
Proof.
  intros Hne. induction fs as [|res fs IH]; [done|].
  simpl. rewrite existsb_app, IH, orb_false_r. unfold frame_events.
  destruct (is_heartbeat res); simpl.
  - by rewrite bool_decide_false.
  - destruct res as [|k ?|]; try done. destruct (nonfatal k); [done|].
    simpl. by rewrite bool_decide_false.
Qed.

Lemma touches_conn_events (conn : Conn) (fs : list Frame) (raised : bool)
    (o : nat) :
  o ≠ oid conn → existsb (touches o) (conn_events conn fs raised) = false.
Proof.
  intros Hne. unfold conn_events. cbn [existsb touches].
  rewrite bool_decide_false by done. cbn [orb].
  rewrite existsb_app, touches_frame_events by done.
  destruct raised; simpl; [by rewrite bool_decide_false|done].
Qed.

Lemma flushes_app (a b : list Event) : flushes (a ++ b) = flushes a ++ flushes b.
Proof. apply flat_map_app. Qed.
Lemma reported_app (a b : list Event) :
  reported (a ++ b) = reported a ++ reported b.
Proof. apply flat_map_app. Qed.
Lemma selected_writable_app (a b : list Event) :
  selected_writable (a ++ b) = selected_writable a ++ selected_writable b.
Proof. apply flat_map_app. Qed.
Lemma selects_app (a b : list Event) : selects (a ++ b) = selects a ++ selects b.
Proof. apply List.filter_app. Qed.

(** Draining one connection never flushes and never selects. *)
Lemma conn_events_quiet (conn : Conn) (fs : list Frame) (raised : bool) :
  flushes (conn_events conn fs raised) = [] ∧
  selects (conn_events conn fs raised) = [] ∧
  reported (conn_events conn fs raised) = [] ∧
  selected_writable (conn_events conn fs raised) = [].
Proof.
  assert (H : ∀ e, e ∈ conn_events conn fs raised →
                   match e with
                   | EvFlush _ | EvSelect _ _ _ _ _ _ _ => False
                   | _ => True
                   end).
  { intros e. unfold conn_events. rewrite elem_of_cons, elem_of_app.
    intros [->|[H|H]]; [done| |].
    - apply list_elem_of_In, in_flat_map in H as (res & _ & H).
      apply list_elem_of_In in H. unfold frame_events in H.
      destruct (is_heartbeat res); [elem_cases H; by subst|].
      destruct res as [|k ?|]; try by apply elem_of_nil in H.
      destruct (nonfatal k); [by apply elem_of_nil in H|].
      elem_cases H; by subst.
    - destruct raised; [|by apply elem_of_nil in H]. elem_cases H; by subst. }
  induction (conn_events conn fs raised) as [|e l IH]; [done|].
  destruct IH as (I1 & I2 & I3 & I4); [intros e' He'; apply H; by right|].
  specialize (H e (list_elem_of_here _ _)).
  unfold flushes, selects, reported, selected_writable in *.
  cbn [flat_map List.filter]. rewrite I1, I2, I3, I4.
  by destruct e.
Qed.

Lemma read_conn_confined (W : World) (rs : list Frame) (conn : Conn)
    (s : State) :
  ∃ s' rs',
    read_conn W rs conn s = (s', Ok rs') ∧
    trace s' = trace s ++ conn_events conn (w_read W (trace s) conn).1
                                      (w_read W (trace s) conn).2 ∧
    ∀ c, oid conn ≠ oid c →
         untouched c s s' (conn_events conn (w_read W (trace s) conn).1
                                       (w_read W (trace s) conn).2).
Proof.
  unfold read_conn, bind at 1, get. cbn [fst snd].
  destruct (w_read W (trace s) conn) as [fs raised]. cbn [fst snd].
  unfold bind at 1, emit. cbn [fst snd]. unfold bind at 1.
  rewrite handle_frames_eq. cbn [self heap trace].
  destruct raised.
  - unfold bind, log, emit, close_connection, ret. cbn [fst snd self heap trace].
    rewrite conn_close_eq. cbn [self heap trace].
    eexists _, _. split; [reflexivity|]. cbn [self heap trace]. split.
    + unfold conn_events. by rewrite <- !app_assoc.
    + intros c Hne. apply not_eq_sym in Hne.
      split; [|by apply touches_conn_events]. cbn [heap].
      rewrite lookup_upd_ne by done. by apply lookup_frames_heap_ne.
  - unfold bind, ret. cbn [fst snd].
    eexists _, _. split; [reflexivity|]. cbn [self heap trace]. split.
    + unfold conn_events. by rewrite <- !app_assoc, app_nil_r.
    + intros c Hne. apply not_eq_sym in Hne.
      split; [|by apply touches_conn_events]. cbn [heap].
      by apply lookup_frames_heap_ne.
Qed.

(** [for conn in readable: ...], seen from the connections it leaves
    alone. *)
Lemma read_loop_confined (W : World) (readable : list Conn) :
  ∀ (rs : list Frame) (s : State),
  ∃ s' rs' evs,
    fold_m (read_conn W) readable rs s = (s', Ok rs') ∧
    trace s' = trace s ++ evs ∧
    flushes evs = [] ∧ selects evs = [] ∧ reported evs = [] ∧
    selected_writable evs = [] ∧
    (∀ c, read_raised c evs → EvClose c ∈ evs) ∧
    (∀ c, (∀ c', c' ∈ readable → oid c' ≠ oid c) → untouched c s s' evs).
Proof.
  induction readable as [|conn l IH]; intros rs s.
  - exists s, rs, []. split; [done|]. rewrite app_nil_r.
    split_and!; try done. by intros c (fs & ?%elem_of_nil).
  - destruct (read_conn_confined W rs conn s) as (s1 & rs1 & Hrc & Ht1 & Hu1).
    destruct (w_read W (trace s) conn) as [fs raised] eqn:Hw.
    cbn [fst snd] in *.
    destruct (IH rs1 s1)
      as (s' & rs' & evs & Hl & Ht & Hf & Hsel & Hrep & Hsw & Hraise & Hu).
    destruct (conn_events_quiet conn fs raised) as (Q1 & Q2 & Q3 & Q4).
    exists s', rs', (conn_events conn fs raised ++ evs).
    cbn [fold_m]. unfold bind at 1. rewrite Hrc, Hl.
    split; [done|]. split_and!.
    + by rewrite Ht, Ht1, app_assoc.
    + by rewrite flushes_app, Q1, Hf.
    + by rewrite selects_app, Q2, Hsel.
    + by rewrite reported_app, Q3, Hrep.
    + by rewrite selected_writable_app, Q4, Hsw.
    + intros c (fs' & [H|H]%elem_of_app); apply elem_of_app.
      * left. unfold conn_events in H.
        apply elem_of_cons in H as [H|H].
        -- injection H as <- <- <-. unfold conn_events.
           right. apply elem_of_app. right. right. left.
        -- exfalso. apply elem_of_app in H as [H|H].
           ++ apply list_elem_of_In, in_flat_map in H as (res & _ & H).
              apply list_elem_of_In in H. unfold frame_events in H.
              destruct (is_heartbeat res); [elem_cases H|].
              destruct res as [|k ?|]; try by apply elem_of_nil in H.
              destruct (nonfatal k); [by apply elem_of_nil in H|].
              elem_cases H.
           ++ destruct raised; [|by apply elem_of_nil in H]. elem_cases H.
      * right. apply Hraise. by exists fs'.
    + intros c Hc. apply (untouched_trans c s s1 s').
      * apply Hu1, Hc. left.
      * apply Hu. intros c' Hc'. apply Hc. by right.
Qed.

Lemma conn_flush_confined (W : World) (c : Conn) (s : State) :
  ∃ s', conn_flush W c s = (s', Ok tt) ∧
        trace s' = trace s ++ [EvFlush c] ∧
        ∀ o, o ≠ oid c → heap s' !! o = heap s !! o.
Proof.
  unfold conn_flush, bind, get, emit. cbn [fst snd].
  rewrite update_conn_eq. cbn [self heap trace].
  eexists. split; [reflexivity|]. cbn [heap trace]. split; [done|].
  intros o Ho. by apply lookup_upd_ne.
Qed.

Lemma close_connection_confined (c : Conn) (s : State) :
  ∃ s', close_connection c s = (s', Ok tt) ∧
        trace s' = trace s ++ [EvClose c] ∧
        ∀ o, o ≠ oid c → heap s' !! o = heap s !! o.
Proof.
  unfold close_connection. rewrite conn_close_eq.
  eexists. split; [reflexivity|]. cbn [heap trace]. split; [done|].
  intros o Ho. by apply lookup_upd_ne.
Qed.

(** A loop whose body makes one call on its connection. *)
Lemma for_each_confined (body : Conn → M unit) (ev : Conn → Event)
    (l : list Conn) :
  (∀ x o, o ≠ oid x → touches o (ev x) = false) →
  (∀ x s, ∃ s', body x s = (s', Ok tt) ∧
                trace s' = trace s ++ [ev x] ∧
                ∀ o, o ≠ oid x → heap s' !! o = heap s !! o) →
  ∀ s, ∃ s',
    for_each l body s = (s', Ok tt) ∧
    trace s' = trace s ++ (ev <$> l) ∧
    ∀ c, (∀ x, x ∈ l → oid x ≠ oid c) → untouched c s s' (ev <$> l).
Proof.
  intros Hev Hbody. induction l as [|x l IH]; intros s.
  - exists s. split; [done|]. by rewrite app_nil_r.
  - destruct (Hbody x s) as (s1 & Hb & Ht1 & Hh1).
    destruct (IH s1) as (s' & Hl & Ht & Hu).
    exists s'. cbn [for_each]. unfold bind. rewrite Hb.
    split; [done|]. split.
    + rewrite Ht, Ht1, fmap_cons. by rewrite <- app_assoc.
    + intros c Hc. change (ev <$> x :: l) with ([ev x] ++ (ev <$> l)).
      apply (untouched_trans c s s1 s').
      * assert (oid c ≠ oid x) by (apply not_eq_sym, Hc; left).
        split; [by apply Hh1|]. simpl. by rewrite Hev.
      * apply Hu. intros y Hy. apply Hc. by right.
Qed.

Lemma flushes_fmap_flush (l : list Conn) : flushes (EvFlush <$> l) = l.
Proof.
  induction l as [|c l IH]; [done|]. rewrite fmap_cons.
  unfold flushes in *. cbn [flat_map app]. by rewrite IH.
Qed.

Lemma not_select_in (e : Event) (evs : list Event) :
  selects evs = [] → e ∈ evs →
  match e with EvSelect _ _ _ _ _ _ _ => False | _ => True end.
Proof.
  intros Hs Hin. destruct e as [| | | | | | |r w x t rd wr ex| |]; try done.
  assert (H : In (EvSelect r w x t rd wr ex) (selects evs)).
  { unfold selects. apply filter_In. split; [by apply list_elem_of_In|done]. }
  by rewrite Hs in H.
Qed.

Lemma selects_fmap_nil {A} (g : A → Event) (l : list A) :
  (∀ x, match g x with EvSelect _ _ _ _ _ _ _ => False | _ => True end) →
  selects (g <$> l) = [].
Proof.
  intros H. induction l as [|x l IH]; [done|]. rewrite fmap_cons.
  unfold selects in *. cbn [List.filter]. specialize (H x).
  by destruct (g x).
Qed.

(** What one [read()] step calls, and on what. *)
Lemma read_io_spec (W : World) (s : State) :
  ∃ s' rs evs,
    read W s = (s', Ok rs) ∧
    trace s' = trace s ++ evs ∧
    selects evs = (if truthy_list (live s) then [the_select W s] else []) ∧
    flushes evs = selected_writable evs ∧
    (∀ c, read_raised c evs → EvClose c ∈ evs) ∧
    (∀ c, exceptional c evs → EvClose c ∈ evs) ∧
    (∀ c, (∀ c', c' ∈ reported evs → oid c' ≠ oid c) → untouched c s s' evs).
Proof.
  unfold read, bind at 1, get. cbn [fst snd].
  change (List.filter (alive (heap s)) (connections s)) with (live s).
  destruct (truthy_list (live s)) eqn:Hlive; cbn [negb].
  2:{ exists s, [], []. split; [done|]. rewrite app_nil_r.
      split_and!; try done.
      - by intros c (fs & ?%elem_of_nil).
      - by intros c (r & w & x & t & rd & wr & ex & ?%elem_of_nil & _). }
  unfold the_select.
  destruct (w_select W (trace s) (live s)
              (List.filter (pending (heap s)) (live s)) (live s)
              (_timeout (self s)))
    as [[readable writable] exceptable].
  set (sel := EvSelect (live s) (List.filter (pending (heap s)) (live s))
                       (live s) (_timeout (self s))
                       readable writable exceptable).
  unfold bind at 1, emit. cbn [fst snd self heap trace].
  set (s0 := mkState (self s) (heap s) (trace s ++ [sel])).
  destruct (truthy_list readable || truthy_list writable
            || truthy_list exceptable)%bool eqn:Hready; cbn [negb].
  - destruct (read_loop_confined W readable [] s0)
      as (s1 & rs & evr & Hl & Ht1 & Hf & Hsel & Hrep & Hsw & Hraise & Hu1).
    destruct (for_each_confined (conn_flush W) EvFlush writable) with (s := s1)
      as (s2 & Hfl & Ht2 & Hu2).
    { intros x o Ho. simpl. by rewrite bool_decide_false. }
    { apply conn_flush_confined. }
    destruct (for_each_confined close_connection EvClose exceptable)
      with (s := s2) as (s3 & Hcx & Ht3 & Hu3).
    { intros x o Ho. simpl. by rewrite bool_decide_false. }
    { apply close_connection_confined. }
    unfold bind at 1. rewrite Hl. unfold bind at 1. rewrite Hfl.
    unfold bind at 1. rewrite Hcx. unfold ret.
    exists s3, rs,
      ([sel] ++ evr ++ (EvFlush <$> writable) ++ (EvClose <$> exceptable)).
    split; [done|]. split_and!.
    + rewrite Ht3, Ht2, Ht1. subst s0. cbn [trace].
      by rewrite <- !app_assoc.
    + rewrite !selects_app, Hsel.
      rewrite (selects_fmap_nil EvFlush), (selects_fmap_nil EvClose) by done.
      done.
    + rewrite !flushes_app, !selected_writable_app, Hf, Hsw.
      rewrite flushes_fmap_flush. unfold flushes at 2.
      unfold selected_writable at 2 3.
      rewrite !flat_map_fmap_nil by done. simpl. by rewrite !app_nil_r.
    + intros c (fs & H). rewrite !elem_of_app in H.
      destruct H as [H|[H|[H|H]]].
      * elem_cases H.
      * rewrite !elem_of_app. right; left. apply Hraise. by exists fs.
      * apply list_elem_of_fmap in H as (x & ? & _). discriminate.
      * apply list_elem_of_fmap in H as (x & ? & _). discriminate.
    + intros c (r & w & x & t & rd & wr & ex & H & Hc).
      rewrite !elem_of_app in H. destruct H as [H|[H|[H|H]]].
      * elem_cases H. injection H as -> -> -> -> -> -> ->.
        rewrite !elem_of_app. right; right; right.
        by apply list_elem_of_fmap_2.
      * by apply (not_select_in _ _ Hsel) in H.
      * apply list_elem_of_fmap in H as (y & ? & _). discriminate.
      * apply list_elem_of_fmap in H as (y & ? & _). discriminate.
    + intros c Hc.
      assert (Hrep' : ∀ c', c' ∈ readable ++ writable ++ exceptable →
                            oid c' ≠ oid c).
      { intros c' Hc'. apply Hc. rewrite reported_app. apply elem_of_app.
        left. simpl. by rewrite app_nil_r. }
      apply (untouched_trans c s s0 s3); [by split|].
      apply (untouched_trans c s0 s1 s3).
      { apply Hu1. intros c' Hc'. apply Hrep'. apply elem_of_app. by left. }
      apply (untouched_trans c s1 s2 s3).
      { apply Hu2. intros c' Hc'. apply Hrep'. rewrite !elem_of_app. auto. }
      apply Hu3. intros c' Hc'. apply Hrep'. rewrite !elem_of_app. auto.
  - apply orb_false_elim in Hready as [Hready Hx].
    apply orb_false_elim in Hready as [Hr Hw].
    apply truthy_list_false in Hr, Hw, Hx. subst readable writable exceptable.
    unfold bind, log, emit, ret. cbn [fst snd self heap trace].
    eexists _, [], [sel; EvLog DEBUG "Timed out..." []].
    split; [reflexivity|]. subst s0. cbn [trace heap]. split_and!.
    + by rewrite <- app_assoc.
    + done.
    + done.
    + intros c (fs & H). elem_cases H.
    + intros c (r & w & x & t & rd & wr & ex & H & Hc).
      elem_cases H. injection H as -> -> -> -> -> -> ->.
      by apply elem_of_nil in Hc.
    + intros c _. by split.
Qed.

(** The two readings of one [read()] step, together. *)
Lemma read_full_spec (W : World) (s : State) :
  ∃ s' rs evs,
    read W s = (s', Ok rs) ∧
    phase s s' evs ∧
    selects evs = (if truthy_list (live s) then [the_select W s] else []) ∧
    flushes evs = selected_writable evs ∧
    (∀ c, close_cause c evs → EvClose c ∈ evs) ∧
    (∀ c, (∀ c', c' ∈ reported evs → oid c' ≠ oid c) → untouched c s s' evs).
Proof.
  destruct (read_spec W s)
    as (s' & rs & evs & Hr & Hph & _ & _ & _ & _ & Hfat).
  destruct (read_io_spec W s)
    as (s2 & rs2 & evs2 & Hr2 & Ht2 & Hsel & Hfl & Hraise & Hex & Hu).
  rewrite Hr in Hr2. injection Hr2 as <- <-.
  destruct Hph as (Hself & Ht & Hal). rewrite Ht in Ht2.
  apply app_inv_head in Ht2 as <-.
  exists s', rs, evs. split_and!; try done.
  intros c [H|[H|H]]; [by apply Hfat|by apply Hraise|by apply Hex].
Qed.

Lemma closed_is_dead (s s' : State) (evs : list Event) (c : Conn) :
  phase s s' evs → EvClose c ∈ evs → alive (heap s') c = false.
Proof.
  intros (_ & _ & Hal) Hin. rewrite Hal.
  assert (closes (oid c) evs = true) as ->.
  { unfold closes. apply existsb_exists. exists (EvClose c).
    split; [by apply list_elem_of_In|]. simpl. by rewrite bool_decide_true. }
  by rewrite andb_false_r.
Qed.

Lemma reported_selects (evs : list Event) :
  reported (selects evs) = reported evs.
Proof.
  induction evs as [|e evs IH]; [done|].
  unfold reported, selects in *. destruct e; cbn [List.filter flat_map];
    try exact IH.
  by rewrite IH.
Qed.

Lemma elem_of_live (s : State) (c : Conn) :
  c ∈ live s ↔ c ∈ connections s ∧ alive (heap s) c = true.
Proof. unfold live. by rewrite !list_elem_of_In, filter_In. Qed.

Lemma alive_same_object (h : list ConnState) (c c' : Conn) :
  oid c' = oid c → alive h c' = alive h c.
Proof. intros E. unfold alive. by rewrite E. Qed.

(** With a [select] that reports only what it was asked to watch,
    [read] calls nothing on a connection that is not alive. *)
Lemma read_dead_untouched (W : World) (s : State) :
  select_sound W →
  ∃ s' rs evs,
    read W s = (s', Ok rs) ∧
    phase s s' evs ∧
    (∀ c, close_cause c evs → EvClose c ∈ evs) ∧
    (∀ c, alive (heap s) c = false → untouched c s s' evs).
Proof.
  intros Hsound.
  destruct (read_full_spec W s)
    as (s' & rs & evs & Hr & Hph & Hsel & _ & Hcl & Hu).
  exists s', rs, evs. split_and!; try done.
  intros c Hdead. apply Hu. intros c' Hc' Ho.
  assert (Hl : c' ∈ live s).
  { rewrite <- reported_selects, Hsel in Hc'.
    destruct (truthy_list (live s)); [|by apply elem_of_nil in Hc'].
    unfold the_select in Hc'.
    specialize (Hsound (trace s) (live s)
                  (List.filter (pending (heap s)) (live s)) (live s)
                  (_timeout (self s))).
    destruct (w_select W (trace s) (live s) _ (live s) _)
      as [[rd wr] ex]. cbn [fst snd] in Hsound.
    destruct Hsound as (Hrd & Hwr & Hex).
    cbn [reported flat_map] in Hc'. rewrite app_nil_r in Hc'.
    rewrite !elem_of_app in Hc'. destruct Hc' as [H|[H|H]].
    - by apply Hrd.
    - apply Hwr in H. apply list_elem_of_In, filter_In in H as [H _].
      by apply list_elem_of_In.
    - by apply Hex. }
  apply elem_of_live in Hl as [_ Hl].
  rewrite (alive_same_object _ _ _ Ho) in Hl. congruence.
Qed.

(** X10: a [read()] step calls [select] at most once, not at all when no
    connection of the table is alive; it asks it to watch, for reading and
    for exceptional conditions, exactly the connections of the table that
    are alive, and for writing those of them that have output pending,
    with the client's timeout.  A connection that is not alive is in none
    of the sets. *)
Theorem read_watches_live_connections (W : World) (s : State) :
  ∃ s' rs evs,
    read W s = (s', Ok rs) ∧
    trace s' = trace s ++ evs ∧
    (List.length (selects evs) ≤ 1)%nat ∧
    (live s = [] → selects evs = []) ∧
    (∀ r w x t rd wr ex,
       EvSelect r w x t rd wr ex ∈ evs →
       r = live s ∧ x = live s ∧
       w = List.filter (pending (heap s)) (live s) ∧
       t = _timeout (self s) ∧
       (rd, wr, ex) = w_select W (trace s) r w x t ∧
       (∀ c, c ∈ r → c ∈ connections s ∧ alive (heap s) c = true) ∧
       (∀ c, c ∈ w → alive (heap s) c = true ∧ pending (heap s) c = true)).
Proof.
  destruct (read_full_spec W s)
    as (s' & rs & evs & Hr & (_ & Ht & _) & Hsel & _).
  exists s', rs, evs. split_and!; try done.
  - rewrite Hsel. destruct (truthy_list (live s)); simpl; lia.
  - intros Hl. by rewrite Hsel, Hl.
  - intros r w x t rd wr ex Hin.
    assert (H : In (EvSelect r w x t rd wr ex) (selects evs)).
    { unfold selects. apply filter_In. split; [by apply list_elem_of_In|done]. }
    rewrite Hsel in H. destruct (truthy_list (live s)); [|done].
    destruct H as [H|[]]. unfold the_select in H.
    destruct (w_select W (trace s) (live s)
                (List.filter (pending (heap s)) (live s)) (live s)
                (_timeout (self s))) as [[rd' wr'] ex'] eqn:Hw.
    injection H as <- <- <- <- <- <- <-. split_and!; try done.
    + intros c Hc. by apply elem_of_live.
    + intros c Hc. apply list_elem_of_In, filter_In in Hc as [Hc Hp].
      apply list_elem_of_In, elem_of_live in Hc as [_ Hc]. done.
Qed.

(** X11: a [read()] step calls methods only on connections that [select]
    reported: any other object of the store has no call made on it and
    keeps its attributes.  So when [select] reports only what it was asked
    to watch, a connection that is not alive is left alone. *)
Theorem read_touches_only_reported (W : World) (s : State) :
  ∃ s' rs evs,
    read W s = (s', Ok rs) ∧
    trace s' = trace s ++ evs ∧
    (∀ c, (∀ c', c' ∈ reported evs → oid c' ≠ oid c) →
          heap s' !! oid c = heap s !! oid c ∧
          existsb (touches (oid c)) evs = false) ∧
    (select_sound W →
     ∀ c, alive (heap s) c = false →
          heap s' !! oid c = heap s !! oid c ∧
          existsb (touches (oid c)) evs = false).
Proof.
  destruct (read_full_spec W s)
    as (s' & rs & evs & Hr & (_ & Ht & _) & _ & _ & _ & Hu).
  exists s', rs, evs. split_and!; try done.
  intros Hsound c Hdead.
  destruct (read_dead_untouched W s Hsound)
    as (s2 & rs2 & evs2 & Hr2 & (_ & Ht2 & _) & _ & Hd).
  rewrite Hr in Hr2. injection Hr2 as <- <-.
  rewrite Ht in Ht2. apply app_inv_head in Ht2 as <-. by apply Hd.
Qed.

(** X12: in a [read()] step the connections flushed are exactly those
    [select] reported writable, once each and in that order; a connection
    whose [read()] raised, and a connection on which [select] reported an
    exceptional condition, is not alive at the end; and the client, its
    table included, is what it was: a connection that [read] closes stays
    in the table. *)
Theorem read_flushes_writable_closes_failed (W : World) (s : State) :
  ∃ s' rs evs,
    read W s = (s', Ok rs) ∧
    trace s' = trace s ++ evs ∧
    self s' = self s ∧
    flushes evs = selected_writable evs ∧
    (∀ c, read_raised c evs → alive (heap s') c = false) ∧
    (∀ c, exceptional c evs → alive (heap s') c = false).
Proof.
  destruct (read_full_spec W s)
    as (s' & rs & evs & Hr & Hph & _ & Hfl & Hcl & _).
  exists s', rs, evs. pose proof Hph as (Hself & Ht & _).
  split_and!; try done.
  - intros c H. apply (closed_is_dead s s' evs); [done|].
    apply Hcl. right; by left.
  - intros c H. apply (closed_is_dead s s' evs); [done|].
    apply Hcl. right; by right.
Qed.

(** X13: two [read()] steps in a row, with a [select] that reports only
    what it was asked to watch.  A connection that the first step closed,
    because a fatal [Error] frame came from it, or its [read()] raised, or
    [select] reported an exceptional condition on it, has nothing called
    on it by the second step and keeps its attributes. *)
Theorem read_leaves_closed_connection_alone (W : World) (s : State) :
  select_sound W →
  ∃ s1 rs1 evs1 s2 rs2 evs2,
    read W s = (s1, Ok rs1) ∧ trace s1 = trace s ++ evs1 ∧
    read W s1 = (s2, Ok rs2) ∧ trace s2 = trace s1 ++ evs2 ∧
    ∀ c, close_cause c evs1 →
         alive (heap s1) c = false ∧
         heap s2 !! oid c = heap s1 !! oid c ∧
         existsb (touches (oid c)) evs2 = false.
Proof.
  intros Hsound.
  destruct (read_dead_untouched W s Hsound)
    as (s1 & rs1 & evs1 & Hr1 & Hph1 & Hcl1 & _).
  destruct (read_dead_untouched W s1 Hsound)
    as (s2 & rs2 & evs2 & Hr2 & (_ & Ht2 & _) & _ & Hd2).
  exists s1, rs1, evs1, s2, rs2, evs2.
  pose proof Hph1 as (_ & Ht1 & _). split_and!; try done.
  intros c Hc.
  assert (Hdead : alive (heap s1) c = false)
    by (apply (closed_is_dead s s1 evs1); [done|by apply Hcl1]).
  split; [done|]. by apply Hd2.
Qed.

Lemma select_sound_W_up : select_sound W_up.
Proof. intros tr r w x t. cbn. split_and!; [done|done|]. apply list_subseteq_nil. Qed.

(** An instance of X13: the live connection yields a fatal error in the
    first step. *)
Lemma read_leaves_closed_connection_alone_witness :
  ∃ s1 rs1 evs1 s2 rs2 evs2,
    read W_up s_live = (s1, Ok rs1) ∧ trace s1 = trace s_live ++ evs1 ∧
    read W_up s1 = (s2, Ok rs2) ∧ trace s2 = trace s1 ++ evs2 ∧
    ∀ c, close_cause c evs1 →
         alive (heap s1) c = false ∧
         heap s2 !! oid c = heap s1 !! oid c ∧
         existsb (touches (oid c)) evs2 = false.
Proof.
  exact (read_leaves_closed_connection_alone W_up s_live select_sound_W_up).
Defined.

(** An instance of X6: the first [connect] of a client without
    connections. *)
Lemma connect_absent_inserts_witness :
  ∃ s' c,
    connect W_up "a" 4150 no_store = (s', Ok c) ∧
    key_of c = ("a", 4150) ∧
    _connections (self s') !! ("a", 4150) = Some c.
Proof.
  destruct (connect_absent_inserts W_up "a" 4150 no_store)
    as (s' & c & H1 & H2 & H3 & _); [reflexivity|].
  exists s', c. split; [exact H1|]. split; [exact H2|].
  rewrite H3. apply lookup_insert_eq.
Defined.

(** An instance of X7: [remove] is given another object with the endpoint
    of the connection the table holds, and closes the one of the table. *)
Lemma remove_closes_the_entry_witness :
  ∃ s',
    remove (mkConn 7 "a" 4150) s_live = (s', Ok (Some c_a)) ∧
    _connections (self s') !! ("a", 4150) = None ∧
    alive (heap s') c_a = false.
Proof.
  destruct (remove_closes_the_entry (mkConn 7 "a" 4150) c_a s_live)
    as (s' & H1 & H2 & _ & _ & H3 & _); [vm_compute; reflexivity|].
  exists s'. split; [exact H1|]. split; [exact H2|exact H3].
Defined.

(** ** [check_connections] and the connections that are alive *)

Lemma discover_one_alive (W : World) (new : list Conn) (hp : string * Z)
    (s : State) (k : string * Z) (c : Conn) :
  sole_entry s k c → alive (heap s) c = true →
  ∃ s' new' evs,
    discover_one W new hp s = (s', Ok new') ∧
    trace s' = trace s ++ evs ∧
    sole_entry s' k c ∧ untouched c s s' evs.
Proof.
  intros Hs Ha. destruct (decide (k = hp)) as [->|Hne].
  - destruct hp as [h p]. pose proof Hs as (Hk & _).
    unfold discover_one, bind at 1, get. cbn [fst snd].
    rewrite Hk, Ha. cbn [negb]. unfold bind, ret. rewrite log_eq.
    eexists _, new,
      [EvLog DEBUG "Connection to %s:%s still alive" [ArgStr h; ArgInt p]].
    split; [reflexivity|]. by split_and!.
  - destruct (discover_one_spec W new hp s)
      as (s' & new' & evs & Hd & Ht & _ & _ & _ & H).
    destruct (H k c Hs) as (Hs' & Hu & _).
    exists s', new', evs. split_and!; try done. by apply Hu.
Qed.

Lemma discover_loop_alive (W : World) (producers : list (string * Z))
    (k : string * Z) (c : Conn) :
  ∀ (new : list Conn) (s : State),
  sole_entry s k c → alive (heap s) c = true →
  ∃ s' new' evs,
    fold_m (discover_one W) producers new s = (s', Ok new') ∧
    trace s' = trace s ++ evs ∧
    sole_entry s' k c ∧ untouched c s s' evs.
Proof.
  induction producers as [|hp rest IH]; intros new s Hs Ha.
  - exists s, new, []. split; [done|]. rewrite app_nil_r. by split_and!.
  - destruct (discover_one_alive W new hp s k c Hs Ha)
      as (s1 & new1 & e1 & H1 & Ht1 & Hs1 & Hu1).
    destruct (IH new1 s1 Hs1)
      as (s' & new' & e2 & H2 & Ht2 & Hs2 & Hu2).
    { by rewrite (alive_untouched c s s1 e1 Hu1). }
    exists s', new', (e1 ++ e2). cbn [fold_m]. unfold bind. rewrite H1, H2.
    split; [done|]. split_and!; [|done|by eapply untouched_trans].
    by rewrite Ht2, Ht1, app_assoc.
Qed.

(** X15: [check_connections] leaves alone a connection of the table that
    is alive, whether a lookupd returns its endpoint or not and whether it
    is a static address or not: however the call ends, the connection is
    still in the table, nothing was called on it, not even [connect()],
    and its attributes are what they were. *)
Theorem check_connections_keeps_live_connection (W : World) (s : State)
    (k : string * Z) (c : Conn) :
  _connections (self s) !! k = Some c →
  (oid c < List.length (heap s))%nat →
  no_alias s k c = true →
  alive (heap s) c = true →
  ∃ s' r evs,
    check_connections W s = (s', r) ∧
    trace s' = trace s ++ evs ∧
    _connections (self s') !! k = Some c ∧
    heap s' !! oid c = heap s !! oid c ∧
    existsb (touches (oid c)) evs = false ∧
    alive (heap s') c = true.
Proof.
  intros Hk Hlt Hna Ha.
  assert (Hs : sole_entry s k c).
  { split_and!; [done|done|]. by apply no_alias_spec. }
  assert (H : ∃ s' r evs, check_connections W s = (s', r) ∧
                trace s' = trace s ++ evs ∧
                sole_entry s' k c ∧ untouched c s s' evs).
  { unfold check_connections, bind at 1, get. cbn [fst snd].
    destruct (truthy_list (_lookupd (self s))).
    - unfold discover, bind at 1, bind at 1, bind at 1, get. cbn [fst snd].
      destruct (query_lookupds_spec W (_topic (self s)) (_lookupd (self s))
                  [] s) as (e1 & Hq & _ & _ & Ht).
      unfold bind at 1. rewrite Hq. simpl app.
      set (s1 := mkState (self s) (heap s) (trace s ++ e1)).
      destruct (discover_loop_alive W (merged (lookups e1)) k c [] s1 Hs Ha)
        as (s2 & new & e2 & Hd & Ht2 & Hs2 & Hu2).
      rewrite Hd. unfold ret at 1.
      destruct (static_loop_spec W (_nsqd_tcp_addresses (self s)) s2)
        as (s' & r & e3 & Hl & _ & Ht3 & _ & _ & H3).
      destruct (H3 k c Hs2) as [Hs3 Hu3].
      rewrite Hl. exists s', r, (e1 ++ e2 ++ e3). split; [done|].
      split_and!; [|done|].
      + rewrite Ht3, Ht2. subst s1. cbn [trace]. by rewrite <- !app_assoc.
      + apply (untouched_trans c s s1 s'); [by split|].
        by apply (untouched_trans c s1 s2 s').
    - unfold bind at 1, ret at 1.
      destruct (static_loop_spec W (_nsqd_tcp_addresses (self s)) s)
        as (s' & r & e3 & Hl & _ & Ht3 & _ & _ & H3).
      destruct (H3 k c Hs) as [Hs3 Hu3].
      rewrite Hl. by exists s', r, e3. }
  destruct H as (s' & r & evs & Hc & Ht & (Hk' & _) & Hu).
  exists s', r, evs. pose proof Hu as [Hh Hev]. split_and!; try done.
  by rewrite (alive_untouched c s s' evs Hu).
Qed.

(** An instance of X15: the live connection to [a:4150], which the lookupd
    returns and which is a static address too. *)
Lemma check_connections_keeps_live_connection_witness :
  ∃ s' r evs,
    check_connections W_up s_live_discovered = (s', r) ∧
    trace s' = trace s_live_discovered ++ evs ∧
    _connections (self s') !! ("a", 4150) = Some c_a ∧
    heap s' !! oid c_a = heap s_live_discovered !! oid c_a ∧
    existsb (touches (oid c_a)) evs = false ∧
    alive (heap s') c_a = true.
Proof.
  apply (check_connections_keeps_live_connection W_up s_live_discovered
           ("a", 4150) c_a).
  - vm_compute; reflexivity.
  - simpl; lia.
  - vm_compute; reflexivity.
  - vm_compute; reflexivity.
Defined.
